(** * Chunk construction of [processors/base_processor.py]

    [BaseProcessor.get_chunks] and its two closures, [add_chunk] and
    [process_nodes], are embedded twice.

    - [process_nodes] and [get_chunks] follow the loops by recursion on the
      sibling list: the cursor [i] is the list that is left, [nodes[i:]],
      and the accumulator of the merge branch is carried in a loop state.
    - [Imp.process_nodes] and [Imp.get_chunks] follow the text of the
      function: a cursor, list indexing, [try]/[except], the list
      [chunks] that the closures share, and the interpreter's bound on
      the depth of the recursion.

    The two are proved to agree, and the properties of the chunk sequence
    are proved on the first. *)

From Stdlib Require Import List Arith ZArith NArith Lia Bool String.
From Stdlib.Strings Require Import Byte.
Import ListNotations.

Local Open Scope Z_scope.

(** ** Text: bytes, code points and UTF-8 *)

(** A Python [bytes] object. *)
Definition bytes := list byte.

(** A Python [str]: a sequence of Unicode code points.  [len] counts code
    points and slicing addresses code points. *)
Definition str := list N.

(** [len(s)] as a Python integer. *)
Definition len {A : Type} (s : list A) : Z := Z.of_nat (List.length s).

(** [s[a:b]] for non-negative [a] and [b]; Python clamps both bounds to the
    length of [s] and gives the empty sequence when [b <= a]. *)
Definition slice {A : Type} (s : list A) (a b : nat) : list A :=
  firstn (b - a) (skipn a s).

Module Utf8.

Local Open Scope N_scope.

Definition val (b : byte) : N := Byte.to_N b.

Definition between (lo hi x : N) : bool := (lo <=? x) && (x <=? hi).

(** Continuation byte [10xxxxxx]. *)
Definition cont (b : byte) : bool := between 128 191 (val b).

Definition low6 (b : byte) : N := val b - 128.

(** Strict UTF-8 decoding, as [bytes.decode('utf-8')] performs it: the
    shortest form only, no surrogate, nothing above U+10FFFF.  [None]
    stands for [UnicodeDecodeError]. *)
Fixpoint decode (bs : bytes) : option str :=
  match bs with
  | [] => Some []
  | b0 :: t0 =>
      let x0 := val b0 in
      if x0 <? 128 then option_map (cons x0) (decode t0)
      else if between 194 223 x0 then
        match t0 with
        | b1 :: t1 =>
            if cont b1
            then option_map (cons ((x0 - 192) * 64 + low6 b1)) (decode t1)
            else None
        | _ => None
        end
      else if between 224 239 x0 then
        match t0 with
        | b1 :: b2 :: t2 =>
            if between (if x0 =? 224 then 160 else 128)
                       (if x0 =? 237 then 159 else 191) (val b1)
               && cont b2
            then option_map
                   (cons ((x0 - 224) * 4096 + low6 b1 * 64 + low6 b2))
                   (decode t2)
            else None
        | _ => None
        end
      else if between 240 244 x0 then
        match t0 with
        | b1 :: b2 :: b3 :: t3 =>
            if between (if x0 =? 240 then 144 else 128)
                       (if x0 =? 244 then 143 else 191) (val b1)
               && cont b2 && cont b3
            then option_map
                   (cons ((x0 - 240) * 262144 + low6 b1 * 4096
                          + low6 b2 * 64 + low6 b3))
                   (decode t3)
            else None
        | _ => None
        end
      else None
  end.

(** Every byte is below 128. *)
Definition ascii (bs : bytes) : Prop := Forall (fun b => val b < 128) bs.

End Utf8.

(** ** Syntax nodes and chunks *)

(** A tree-sitter point: (row, column). *)
Definition Point : Type := (nat * nat)%type.

(** The attributes of [tree_sitter.Node] that the chunker reads.  Byte
    offsets are unsigned. *)
#[local] Set Warnings "-register-all".
Inductive Node : Type := mkNode {
  start_byte : nat;
  end_byte : nat;
  start_point : Point;
  end_point : Point;
  type : string;
  text : bytes;
  children : list Node
}.
#[local] Set Warnings "register-all".

(** The inner dictionary of a chunk. *)
Record Metadata : Type := mkMetadata {
  id : nat;
  chunk_type : string;
  chunk_start_point : Point;
  chunk_end_point : Point;
  file_name : string
}.

(** A chunk: [{"content": ..., "metadata": {...}}]. *)
Record Chunk : Type := mkChunk {
  content : str;
  metadata : Metadata
}.

Definition MAX_CHUNK_SIZE : Z := 2048.
Definition MIN_CHUNK_SIZE : Z := 1024.

(** ** The chunker *)

(** State of the two nested [while] loops of [process_nodes] at a cursor
    position: in the outer loop the accumulator is empty; inside the inner
    loop it holds [current_chunk_nodes] and [current_chunk_size]. *)
Inductive loop_state : Type :=
| Outer
| Inner (current_chunk_nodes : list Node) (current_chunk_size : Z).

Section Chunker.

(** The two variables the closures capture from [get_chunks]. *)
Variable source_code : str.
Variable fname : string.

(** [add_chunk]: slices the decoded source by the given offsets and
    appends a chunk numbered by the current length of [chunks]. *)
Definition add_chunk (start_b end_b : nat) (start_p end_p : Point)
    (ty : string) (chunks : list Chunk) : list Chunk :=
  let chunk_text := slice source_code start_b end_b in
  chunks ++ [ {| content := chunk_text;
                 metadata := {| id := List.length chunks;
                                chunk_type := ty;
                                chunk_start_point := start_p;
                                chunk_end_point := end_p;
                                file_name := fname |} |} ].

(** "Create chunk with accumulated nodes": the [if current_chunk_nodes:]
    block that follows the inner loop. *)
Definition flush (current_chunk_nodes : list Node) (chunks : list Chunk)
    : list Chunk :=
  match current_chunk_nodes with
  | [] => chunks
  | first :: _ =>
      let last := List.last current_chunk_nodes first in
      add_chunk (start_byte first) (end_byte last)
                (start_point first) (end_point last) "mix" chunks
  end.

(** The loops of [process_nodes], by recursion on the siblings from the
    cursor [i] on ([nodes[i:]]).  The state says which loop the cursor is
    in; [recurse node] stands for the call [process_nodes(node.children)]. *)
Section Loops.

Variable recurse : Node -> list Chunk -> list Chunk.

Fixpoint process_siblings (nodes : list Node) (st : loop_state)
    (chunks : list Chunk) {struct nodes} : list Chunk :=
  match nodes with
  | [] =>
      match st with
      | Outer => chunks
      | Inner current_chunk_nodes _ => flush current_chunk_nodes chunks
      end
  | node :: rest =>
      (* one iteration of the outer loop at [node], accumulator empty *)
      let outer_iteration (chunks : list Chunk) : list Chunk :=
        match Utf8.decode (text node) with
        | None => process_siblings rest Outer chunks
        | Some s =>
            let node_size := len s in
            if 0 + node_size <? MIN_CHUNK_SIZE then
              process_siblings rest
                (Inner ([] ++ [node]) (0 + node_size)) chunks
            else if (node_size >? MAX_CHUNK_SIZE)
                    && (len (children node) >? 0) then
              process_siblings rest Outer (recurse node chunks)
            else
              process_siblings rest Outer
                (add_chunk (start_byte node) (end_byte node)
                           (start_point node) (end_point node)
                           (type node) chunks)
        end in
      match st with
      | Outer => outer_iteration chunks
      | Inner current_chunk_nodes current_chunk_size =>
          if current_chunk_size <? MIN_CHUNK_SIZE then
            (* one iteration of the inner loop at [node] *)
            match Utf8.decode (text node) with
            | None =>
                process_siblings rest
                  (Inner current_chunk_nodes current_chunk_size) chunks
            | Some s =>
                process_siblings rest
                  (Inner (current_chunk_nodes ++ [node])
                         (current_chunk_size + len s)) chunks
            end
          else
            (* the inner loop ends, the accumulator is flushed and the
               outer loop goes on at the same cursor *)
            outer_iteration (flush current_chunk_nodes chunks)
      end
  end.

End Loops.

(** [process_nodes(node.children)]. *)
Fixpoint process_children (node : Node) (chunks : list Chunk)
    {struct node} : list Chunk :=
  process_siblings process_children (children node) Outer chunks.

(** [process_nodes(nodes)]: both loops start with an empty accumulator. *)
Definition process_nodes (nodes : list Node) (chunks : list Chunk)
    : list Chunk :=
  process_siblings process_children nodes Outer chunks.

End Chunker.

(** [get_chunks]: decodes the root's text, then chunks the root's children
    into an empty list. *)
Definition get_chunks (root_node : Node) (fname : string) : list Chunk :=
  let chunks := [] in
  match Utf8.decode (text root_node) with
  | None => chunks
  | Some source_code =>
      process_nodes source_code fname (children root_node) chunks
  end.

(** ** Provenance of chunks *)

(** What [process_nodes] appends, with the nodes each chunk was built
    from: a merged chunk remembers its accumulator and the size it had
    reached, a standalone chunk its node. *)
Inductive emission : Type :=
| Mix (current_chunk_nodes : list Node) (current_chunk_size : Z)
| Standalone (node : Node).

Definition flush_trace (current_chunk_nodes : list Node)
    (current_chunk_size : Z) : list emission :=
  match current_chunk_nodes with
  | [] => []
  | _ :: _ => [Mix current_chunk_nodes current_chunk_size]
  end.

Section Trace.

Variable recurse : Node -> list emission.

(** The loops of [process_siblings], recording emissions instead of
    appending chunks. *)
Fixpoint siblings_trace (nodes : list Node) (st : loop_state)
    {struct nodes} : list emission :=
  match nodes with
  | [] =>
      match st with
      | Outer => []
      | Inner current_chunk_nodes current_chunk_size =>
          flush_trace current_chunk_nodes current_chunk_size
      end
  | node :: rest =>
      let outer_iteration : list emission :=
        match Utf8.decode (text node) with
        | None => siblings_trace rest Outer
        | Some s =>
            let node_size := len s in
            if 0 + node_size <? MIN_CHUNK_SIZE then
              siblings_trace rest (Inner ([] ++ [node]) (0 + node_size))
            else if (node_size >? MAX_CHUNK_SIZE)
                    && (len (children node) >? 0) then
              recurse node ++ siblings_trace rest Outer
            else
              Standalone node :: siblings_trace rest Outer
        end in
      match st with
      | Outer => outer_iteration
      | Inner current_chunk_nodes current_chunk_size =>
          if current_chunk_size <? MIN_CHUNK_SIZE then
            match Utf8.decode (text node) with
            | None =>
                siblings_trace rest
                  (Inner current_chunk_nodes current_chunk_size)
            | Some s =>
                siblings_trace rest
                  (Inner (current_chunk_nodes ++ [node])
                         (current_chunk_size + len s))
            end
          else
            flush_trace current_chunk_nodes current_chunk_size
            ++ outer_iteration
      end
  end.

End Trace.

Fixpoint children_trace (node : Node) {struct node} : list emission :=
  siblings_trace children_trace (children node) Outer.

(** The emissions of [process_nodes(nodes)], in order. *)
Definition emissions (nodes : list Node) : list emission :=
  siblings_trace children_trace nodes Outer.

(** The nodes an emission was built from. *)
Definition constituents (e : emission) : list Node :=
  match e with
  | Mix current_chunk_nodes _ => current_chunk_nodes
  | Standalone node => [node]
  end.

(** The [type] an emission is given. *)
Definition emission_type (e : emission) : string :=
  match e with
  | Mix _ _ => "mix"%string
  | Standalone node => type node
  end.

(** The byte span an emission passes to [add_chunk]. *)
Definition emission_span (e : emission) : nat * nat :=
  match e with
  | Mix [] _ => (0%nat, 0%nat)
  | Mix (first :: tl) _ =>
      (start_byte first, end_byte (List.last (first :: tl) first))
  | Standalone node => (start_byte node, end_byte node)
  end.

Section Emit.

Variable source_code : str.
Variable fname : string.

(** The chunk list after an emission. *)
Definition emit (chunks : list Chunk) (e : emission) : list Chunk :=
  match e with
  | Mix current_chunk_nodes _ =>
      flush source_code fname current_chunk_nodes chunks
  | Standalone node =>
      add_chunk source_code fname (start_byte node) (end_byte node)
                (start_point node) (end_point node) (type node) chunks
  end.

End Emit.

(** ** Induction on syntax trees *)

Section NodeInduction.

Variable P : Node -> Prop.
Hypothesis step : forall node, Forall P (children node) -> P node.

Fixpoint Node_induction (node : Node) : P node :=
  step node
    ((fix all (l : list Node) : Forall P l :=
        match l with
        | [] => Forall_nil P
        | n :: r => Forall_cons n (Node_induction n) (all r)
        end) (children node)).

End NodeInduction.

(** ** The chunker as it is written: cursor, exceptions, mutable list *)

Module Imp.

(** The exceptions of the function: a text that is not UTF-8, an index
    out of range, and the [RecursionError] of a call that the interpreter's
    recursion limit does not admit. *)
Inductive exn : Type := UnicodeDecodeError | IndexError | RecursionError.

(** What a call does: it returns, it raises, or the model ran out of
    the steps it was given. *)
Inductive outcome (A : Type) : Type :=
| Ret (a : A)
| Raise (e : exn)
| OutOfFuel.
Arguments Ret {A} a.
Arguments Raise {A} e.
Arguments OutOfFuel {A}.

(** [b.decode('utf-8')]. *)
Definition decode (b : bytes) : outcome str :=
  match Utf8.decode b with
  | Some s => Ret s
  | None => Raise UnicodeDecodeError
  end.

(** [l[i]] for a non-negative [i]. *)
Definition getitem {A : Type} (l : list A) (i : nat) : outcome A :=
  match nth_error l i with
  | Some x => Ret x
  | None => Raise IndexError
  end.

(** [l[-1]]. *)
Definition getlast {A : Type} (l : list A) : outcome A :=
  match l with
  | [] => Raise IndexError
  | x :: _ => Ret (List.last l x)
  end.

(** Computations over the list [chunks] that the closures share. *)
Definition M (A : Type) : Type := list Chunk -> outcome (A * list Chunk).

Definition ret {A : Type} (a : A) : M A := fun chunks => Ret (a, chunks).

Definition bind {A B : Type} (m : M A) (k : A -> M B) : M B :=
  fun chunks =>
    match m chunks with
    | Ret (a, chunks') => k a chunks'
    | Raise e => Raise e
    | OutOfFuel => OutOfFuel
    end.

(** A computation that leaves [chunks] alone. *)
Definition lift {A : Type} (o : outcome A) : M A :=
  fun chunks =>
    match o with
    | Ret a => Ret (a, chunks)
    | Raise e => Raise e
    | OutOfFuel => OutOfFuel
    end.

Notation "x <- m ;; k" := (bind m (fun x => k))
  (at level 61, m at next level, right associativity).
Notation "m ;;; k" := (bind m (fun _ => k))
  (at level 61, right associativity).

(** [try: x = len(b.decode('utf-8'))] with [except UnicodeDecodeError:];
    [decode] raises nothing else. *)
Definition try_len {A : Type} (b : bytes) (body : Z -> A) (handler : A)
    : A :=
  match decode b with
  | Ret s => body (len s)
  | _ => handler
  end.

Section Closures.

Variable source_code : str.
Variable fname : string.

(** [chunks.append({...})] with ["id": len(chunks)]. *)
Definition add_chunk (start_b end_b : nat) (start_p end_p : Point)
    (ty : string) : M unit :=
  fun chunks =>
    let chunk_text := slice source_code start_b end_b in
    Ret (tt, chunks ++ [ {| content := chunk_text;
                            metadata := {| id := List.length chunks;
                                           chunk_type := ty;
                                           chunk_start_point := start_p;
                                           chunk_end_point := end_p;
                                           file_name := fname |} |} ]).

(** The inner [while current_chunk_size < MIN and i < len(nodes)].
    It returns the cursor and the accumulator it stopped with. *)
Fixpoint inner_while (fuel : nat) (nodes : list Node) (i : nat)
    (current_chunk_nodes : list Node) (current_chunk_size : Z)
    {struct fuel} : outcome (nat * list Node * Z) :=
  if (current_chunk_size <? MIN_CHUNK_SIZE)
     && (i <? List.length nodes)%nat then
    match fuel with
    | O => OutOfFuel
    | S fuel =>
        match getitem nodes i with
        | Ret next_node =>
            try_len (text next_node)
              (fun next_node_size =>
                 inner_while fuel nodes (i + 1)
                   (current_chunk_nodes ++ [next_node])
                   (current_chunk_size + next_node_size))
              (inner_while fuel nodes (i + 1)
                 current_chunk_nodes current_chunk_size)
        | Raise e => Raise e
        | OutOfFuel => OutOfFuel
        end
    end
  else Ret (i, current_chunk_nodes, current_chunk_size).

(** The [if current_chunk_nodes:] block. *)
Definition create_chunk (current_chunk_nodes : list Node) : M unit :=
  match current_chunk_nodes with
  | [] => ret tt
  | _ :: _ =>
      first <- lift (getitem current_chunk_nodes 0) ;;
      last <- lift (getlast current_chunk_nodes) ;;
      add_chunk (start_byte first) (end_byte last)
                (start_point first) (end_point last) "mix"
  end.

Section Outer.

(** The recursive call [process_nodes(node.children)]. *)
Variable process_nodes : list Node -> M unit.

(** The outer [while i < len(nodes)]. *)
Fixpoint outer_while (fuel : nat) (nodes : list Node) (i : nat)
    (current_chunk_nodes : list Node) (current_chunk_size : Z)
    {struct fuel} : M unit :=
  if (i <? List.length nodes)%nat then
    match fuel with
    | O => fun _ => OutOfFuel
    | S fuel =>
        node <- lift (getitem nodes i) ;;
        try_len (text node)
          (fun node_size =>
             if current_chunk_size + node_size <? MIN_CHUNK_SIZE then
               let current_chunk_nodes :=
                 current_chunk_nodes ++ [node] in
               let current_chunk_size :=
                 current_chunk_size + node_size in
               let i := (i + 1)%nat in
               r <- lift (inner_while fuel nodes i current_chunk_nodes
                                      current_chunk_size) ;;
               let '(i, current_chunk_nodes, _) := r in
               create_chunk current_chunk_nodes ;;;
               outer_while fuel nodes i [] 0
             else if (node_size >? MAX_CHUNK_SIZE)
                     && (len (children node) >? 0) then
               process_nodes (children node) ;;;
               outer_while fuel nodes (i + 1)
                 current_chunk_nodes current_chunk_size
             else
               add_chunk (start_byte node) (end_byte node)
                         (start_point node) (end_point node)
                         (type node) ;;;
               outer_while fuel nodes (i + 1)
                 current_chunk_nodes current_chunk_size)
          (outer_while fuel nodes (i + 1)
             current_chunk_nodes current_chunk_size)
    end
  else ret tt.

End Outer.

(** [process_nodes].  [limit] is the number of nested activations of
    [process_nodes] the interpreter still admits (its recursion limit less
    the frames in use, with the room the calls of [add_chunk], [logging] and
    the built-ins take): a call beyond it raises [RecursionError], and
    nothing in the function catches it.  A unit of fuel pays for one loop
    iteration or one level of recursion; fuel is the model's, the limit is
    the interpreter's. *)
Fixpoint process_nodes (fuel : nat) (limit : nat) (nodes : list Node)
    {struct fuel} : M unit :=
  match limit with
  | O => fun _ => Raise RecursionError
  | S limit =>
      match fuel with
      | O => fun _ => OutOfFuel
      | S fuel => outer_while (process_nodes fuel limit) fuel nodes 0 [] 0
      end
  end.

End Closures.

(** [get_chunks]; [limit] as for [process_nodes], counted from the call
    on its last line but one. *)
Definition get_chunks (fuel : nat) (limit : nat) (root_node : Node)
    (fname : string) : outcome (list Chunk) :=
  let chunks := [] in
  match decode (text root_node) with
  | Ret source_code =>
      match process_nodes source_code fname fuel limit (children root_node)
                          chunks with
      | Ret (_, chunks) => Ret chunks
      | Raise e => Raise e
      | OutOfFuel => OutOfFuel
      end
  | _ => Ret chunks
  end.

End Imp.

(** Number of nodes of a forest; that much fuel (and one unit more) runs
    [Imp.process_nodes] to its end. *)
Fixpoint node_count (node : Node) {struct node} : nat :=
  S (list_sum (map node_count (children node))).

Definition forest_count (nodes : list Node) : nat :=
  list_sum (map node_count nodes).

(** Height of a tree and of a forest: the longest chain of nodes from a
    sibling down to a leaf.  [process_nodes] nests no deeper than one
    activation more than that. *)
Fixpoint node_height (node : Node) {struct node} : nat :=
  S (list_max (map node_height (children node))).

Definition forest_height (nodes : list Node) : nat :=
  list_max (map node_height nodes).

(** ** Vocabulary of the properties *)

(** The character length [process_nodes] measures, when the text decodes. *)
Definition node_size (node : Node) : option Z :=
  option_map len (Utf8.decode (text node)).

Definition decodable (node : Node) : Prop :=
  Utf8.decode (text node) <> None.

(** A node the split branch is meant for. *)
Definition oversized (node : Node) : Prop :=
  exists size, node_size node = Some size /\ size > MAX_CHUNK_SIZE.

(** The node decodes and is shorter than [MIN_CHUNK_SIZE]. *)
Definition small (node : Node) : Prop :=
  exists size, node_size node = Some size /\ size < MIN_CHUNK_SIZE.

Definition all_small (nodes : list Node) : Prop := Forall small nodes.

(** The loop state once the cursor has passed [nodes], the loops having
    started in state [st]; a split or standalone node leaves the
    accumulator empty. *)
Fixpoint state_after (nodes : list Node) (st : loop_state) {struct nodes}
    : loop_state :=
  match nodes with
  | [] => st
  | node :: rest =>
      let outer_iteration : loop_state :=
        match Utf8.decode (text node) with
        | None => state_after rest Outer
        | Some s =>
            if 0 + len s <? MIN_CHUNK_SIZE
            then state_after rest (Inner ([] ++ [node]) (0 + len s))
            else state_after rest Outer
        end in
      match st with
      | Outer => outer_iteration
      | Inner current_chunk_nodes current_chunk_size =>
          if current_chunk_size <? MIN_CHUNK_SIZE then
            match Utf8.decode (text node) with
            | None =>
                state_after rest
                  (Inner current_chunk_nodes current_chunk_size)
            | Some s =>
                state_after rest
                  (Inner (current_chunk_nodes ++ [node])
                         (current_chunk_size + len s))
            end
          else outer_iteration
      end
  end.

(** The inner loop is running and will pull the next decodable sibling:
    the accumulator is not empty and still below [MIN_CHUNK_SIZE]. *)
Definition merging (st : loop_state) : bool :=
  match st with
  | Outer => false
  | Inner _ current_chunk_size => current_chunk_size <? MIN_CHUNK_SIZE
  end.

(** Summed character length of a group of nodes. *)
Definition group_size (group : list Node) : Z :=
  fold_right (fun node total =>
                match node_size node with
                | Some size => size + total
                | None => total
                end) 0 group.

(** Every group but the last one reaches [MIN_CHUNK_SIZE]. *)
Fixpoint reach_min (groups : list (list Node)) : Prop :=
  match groups with
  | [] => True
  | group :: later =>
      match later with
      | [] => True
      | _ :: _ => MIN_CHUNK_SIZE <= group_size group /\ reach_min later
      end
  end.

(** A way to merge the siblings [nodes] into consecutive non-empty groups
    that meets the bound of the merge threshold. *)
Definition grouping (nodes : list Node) (groups : list (list Node)) : Prop :=
  List.concat groups = nodes
  /\ Forall (fun group => group <> []) groups
  /\ reach_min groups.

(** The byte range of [node] and the span [(lo, hi)] do not meet. *)
Definition outside (span : nat * nat) (node : Node) : Prop :=
  (end_byte node <= fst span)%nat \/ (snd span <= start_byte node)%nat.

(** Concatenated decoded texts of [nodes]; [None] when one fails. *)
Fixpoint texts (nodes : list Node) : option str :=
  match nodes with
  | [] => Some []
  | node :: rest =>
      match Utf8.decode (text node), texts rest with
      | Some s, Some r => Some (s ++ r)
      | _, _ => None
      end
  end.

(** *** Shape of the trees a parser hands over *)

Fixpoint bytes_eqb (a b : bytes) : bool :=
  match a, b with
  | [], [] => true
  | x :: a', y :: b' => Byte.eqb x y && bytes_eqb a' b'
  | _, _ => false
  end.

(** The siblings lie in order, without overlap, inside [lo, hi). *)
Fixpoint contained (lo hi : nat) (nodes : list Node) : bool :=
  match nodes with
  | [] => (lo <=? hi)%nat
  | node :: rest =>
      (lo <=? start_byte node)%nat
      && (start_byte node <=? end_byte node)%nat
      && contained (end_byte node) hi rest
  end.

(** The siblings cover [lo, hi) exactly, each starting where the previous
    one ends. *)
Fixpoint contiguous (lo hi : nat) (nodes : list Node) : bool :=
  match nodes with
  | [] => (lo =? hi)%nat
  | node :: rest =>
      (start_byte node =? lo)%nat
      && (lo <=? end_byte node)%nat
      && contiguous (end_byte node) hi rest
  end.

(** [node] is a tree over the source bytes [src]: its text is the bytes of
    its range, its children lie in order inside it, and so on downwards. *)
Fixpoint well_formed (src : bytes) (node : Node) {struct node} : bool :=
  (end_byte node <=? List.length src)%nat
  && bytes_eqb (text node) (slice src (start_byte node) (end_byte node))
  && contained (start_byte node) (end_byte node) (children node)
  && forallb (well_formed src) (children node).

(** A well-formed root: it spans the whole source. *)
Definition well_formed_root (root_node : Node) : bool :=
  (start_byte root_node =? 0)%nat
  && (end_byte root_node =? List.length (text root_node))%nat
  && well_formed (text root_node) root_node.

(** *** Sample trees *)

(** The node of type [ty] over the range [lo, hi) of [src]. *)
Definition node_at (src : bytes) (lo hi : nat) (ty : string)
    (kids : list Node) : Node :=
  {| start_byte := lo; end_byte := hi;
     start_point := (0%nat, lo); end_point := (0%nat, hi);
     type := ty; text := slice src lo hi; children := kids |}.

Module Samples.

Local Open Scope nat_scope.
Local Open Scope string_scope.

(** 3600 letters [a]. *)
Definition letters (n : nat) : bytes := repeat "a"%byte n.

(** Children of 300, 300 and 3000 characters, the third one with two
    leaves of 1500 characters. *)
Definition e2e_src : bytes := letters 3600.
Definition e2e_a : Node := node_at e2e_src 0 300 "comment" [].
Definition e2e_b : Node := node_at e2e_src 300 600 "import_statement" [].
Definition e2e_g1 : Node :=
  node_at e2e_src 600 2100 "function_definition" [].
Definition e2e_g2 : Node :=
  node_at e2e_src 2100 3600 "class_definition" [].
Definition e2e_c : Node :=
  node_at e2e_src 600 3600 "block" [e2e_g1; e2e_g2].
Definition e2e_root : Node :=
  node_at e2e_src 0 3600 "module" [e2e_a; e2e_b; e2e_c].

(** A short node followed by an oversized node with two children. *)
Definition split_src : bytes := letters 3300.
Definition split_small : Node := node_at split_src 0 300 "comment" [].
Definition split_k1 : Node :=
  node_at split_src 300 1800 "function_definition" [].
Definition split_k2 : Node :=
  node_at split_src 1800 3300 "function_definition" [].
Definition split_big : Node :=
  node_at split_src 300 3300 "class_definition" [split_k1; split_k2].
Definition split_root : Node :=
  node_at split_src 0 3300 "module" [split_small; split_big].

(** A short node followed by an oversized leaf. *)
Definition leaf_small : Node := node_at split_src 0 300 "comment" [].
Definition leaf_big : Node := node_at split_src 300 3300 "string" [].
Definition leaf_root : Node :=
  node_at split_src 0 3300 "module" [leaf_small; leaf_big].

(** A node of 1100 characters, an oversized node with two children and
    a short node. *)
Definition mid_src : bytes := letters 4400.
Definition mid_first : Node :=
  node_at mid_src 0 1100 "function_definition" [].
Definition mid_k1 : Node :=
  node_at mid_src 1100 2600 "function_definition" [].
Definition mid_k2 : Node :=
  node_at mid_src 2600 4100 "function_definition" [].
Definition mid_big : Node :=
  node_at mid_src 1100 4100 "class_definition" [mid_k1; mid_k2].
Definition mid_last : Node := node_at mid_src 4100 4400 "comment" [].
Definition mid_root : Node :=
  node_at mid_src 0 4400 "module" [mid_first; mid_big; mid_last].

(** The same siblings, the oversized one being a leaf. *)
Definition mid_leaf : Node := node_at mid_src 1100 4100 "string" [].
Definition mid_leaf_root : Node :=
  node_at mid_src 0 4400 "module" [mid_first; mid_leaf; mid_last].

(** Four siblings of 600 characters. *)
Definition four_src : bytes := letters 2400.
Definition four_nodes : list Node :=
  [node_at four_src 0 600 "comment" [];
   node_at four_src 600 1200 "comment" [];
   node_at four_src 1200 1800 "comment" [];
   node_at four_src 1800 2400 "comment" []].
Definition four_root : Node := node_at four_src 0 2400 "module" four_nodes.

(** [a], e-acute (bytes C3 A9), [b]; the middle sibling holds the first
    byte of the e-acute only. *)
Definition skip_src : bytes := ["a"%byte; xc3; xa9; "b"%byte].
Definition skip_a : Node := node_at skip_src 0 1 "identifier" [].
Definition skip_bad : Node := node_at skip_src 1 2 "ERROR" [].
Definition skip_b : Node := node_at skip_src 3 4 "identifier" [].
Definition skip_root : Node :=
  node_at skip_src 0 4 "module" [skip_a; skip_bad; skip_b].

(** e-acute followed by [abc]; the only child is [abc]. *)
Definition accent_src : bytes :=
  [xc3; xa9; "a"%byte; "b"%byte; "c"%byte].
Definition accent_child : Node := node_at accent_src 2 5 "identifier" [].
Definition accent_root : Node :=
  node_at accent_src 0 5 "module" [accent_child].

(** 1024 e-acutes (2048 bytes), then an oversized node of 2100 letters
    with two children; every sibling list covers its parent. *)
Definition nested_src : bytes :=
  (List.concat (repeat [xc3; xa9] 1024) ++ letters 2100)%list.
Definition nested_a : Node := node_at nested_src 0 2048 "comment" [].
Definition nested_k1 : Node :=
  node_at nested_src 2048 3098 "function_definition" [].
Definition nested_k2 : Node :=
  node_at nested_src 3098 4148 "function_definition" [].
Definition nested_big : Node :=
  node_at nested_src 2048 4148 "class_definition" [nested_k1; nested_k2].
Definition nested_root : Node :=
  node_at nested_src 0 4148 "module" [nested_a; nested_big].

(** A source that is not UTF-8. *)
Definition broken_root : Node := node_at [xff; "a"%byte] 0 2 "module" [].

(** One short child. *)
Definition single_src : bytes := ["x"%byte; "="%byte; "1"%byte].
Definition single_child : Node :=
  node_at single_src 0 3 "expression_statement" [].
Definition single_root : Node :=
  node_at single_src 0 3 "module" [single_child].

End Samples.

(** A tree deeper than a recursion limit: the parse of
    [x...x+a+a+...+a], an identifier of 2100 letters and [k] additions,
    nested to the left. *)
Module Deep.

Local Open Scope nat_scope.
Local Open Scope string_scope.

(** The two bytes of one addition, [+a]. *)
Definition term : bytes := ["+"%byte; "a"%byte].

(** The source: the identifier, [k] additions, and a line feed. *)
Definition source (k : nat) : bytes :=
  (Samples.letters 2100 ++ List.concat (repeat term k) ++ [x0a])%list.

(** The binary operator of [k] additions over [src]: its first child is
    the operator of [k - 1] additions, then come the sign and the
    operand. *)
Fixpoint chain (src : bytes) (k : nat) {struct k} : Node :=
  match k with
  | O => node_at src 0 2100 "identifier" []
  | S k' =>
      node_at src 0 (2102 + 2 * k') "binary_operator"
        [chain src k';
         node_at src (2100 + 2 * k') (2101 + 2 * k') "+" [];
         node_at src (2101 + 2 * k') (2102 + 2 * k') "identifier" []]
  end.

(** The module: one expression, and the line feed after it. *)
Definition root (k : nat) : Node :=
  node_at (source k) 0 (2101 + 2 * k) "module" [chain (source k) k].

End Deep.

(** *** The end-to-end example *)

(** A root with three children of 300, 300 and 3000 characters, the third
    one with two leaves of 1500 characters. *)
Definition e2e_shape (root_node a b c g1 g2 : Node) : Prop :=
  decodable root_node
  /\ children root_node = [a; b; c]
  /\ children c = [g1; g2] /\ children g1 = [] /\ children g2 = []
  /\ node_size a = Some 300 /\ node_size b = Some 300
  /\ node_size c = Some 3000
  /\ node_size g1 = Some 1500 /\ node_size g2 = Some 1500.

(** Ids and types of a chunk list, in order. *)
Definition ids_and_types (chunks : list Chunk) : list (nat * string) :=
  map (fun c => (id (metadata c), chunk_type (metadata c))) chunks.

(** The output the example is said to have: a merged chunk, then one chunk
    for each grandchild. *)
Definition e2e_expected (g1 g2 : Node) (chunks : list Chunk) : Prop :=
  ids_and_types chunks
  = [(0%nat, "mix"%string); (1%nat, type g1); (2%nat, type g2)].

(** The chunk [add_chunk] builds when [n] chunks were emitted before. *)
Definition chunk_of (source_code : str) (fname : string) (n : nat)
    (start_b end_b : nat) (start_p end_p : Point) (ty : string) : Chunk :=
  {| content := slice source_code start_b end_b;
     metadata := {| id := n; chunk_type := ty;
                    chunk_start_point := start_p;
                    chunk_end_point := end_p;
                    file_name := fname |} |}.

(** The ids of [chunks] are 0, 1, 2, ... in order. *)
Definition numbered (chunks : list Chunk) : Prop :=
  map (fun c => id (metadata c)) chunks = seq 0 (List.length chunks).

(** *** Split and standalone rules *)

(** No chunk is built from [node]: it is neither emitted alone nor part of
    a merged chunk. *)
Definition never_chunked (nodes : list Node) (node : Node) : Prop :=
  forall e, In e (emissions nodes) -> ~ In node (constituents e).

(** [node] is emitted as a chunk of its own. *)
Definition emitted_alone (nodes : list Node) (node : Node) : Prop :=
  In (Standalone node) (emissions nodes).

(** The types of a chunk list, in order. *)
Definition chunk_types (chunks : list Chunk) : list string :=
  map (fun c => chunk_type (metadata c)) chunks.

(** *** Skipped nodes *)

(** The byte range of [node] lies outside the span of every chunk emitted
    for [nodes]. *)
Definition spans_avoid (nodes : list Node) (node : Node) : Prop :=
  forall e, In e (emissions nodes) -> outside (emission_span e) node.

(** Every node an emission was built from decodes. *)
Definition built_from_decodable (e : emission) : Prop :=
  Forall decodable (constituents e).

(** *** Merge threshold *)

(** No grouping of [nodes] that meets the bound has fewer groups than
    [process_nodes] emits chunks. *)
Definition fewest_groups (nodes : list Node) : Prop :=
  forall groups, grouping nodes groups ->
    (List.length (emissions nodes) <= List.length groups)%nat.

(** No grouping of [nodes] that meets the bound has more groups than
    [process_nodes] emits chunks. *)
Definition most_groups (nodes : list Node) : Prop :=
  forall groups, grouping nodes groups ->
    (List.length groups <= List.length (emissions nodes))%nat.

(** A merged chunk whose recorded size is the summed size of the nodes it
    was built from, of which there is at least one. *)
Definition merged (e : emission) : Prop :=
  exists acc, acc <> [] /\ e = Mix acc (group_size acc).

(** Size of a node, 0 when its text does not decode. *)
Definition sz (node : Node) : Z :=
  match node_size node with Some size => size | None => 0 end.

(** Number of chunks emitted from a loop state on. *)
Definition count (trace : Node -> list emission) (nodes : list Node)
    (st : loop_state) : nat :=
  List.length (siblings_trace trace nodes st).

(** A loop state as the loops build it: the accumulator of the inner loop
    is not empty and its size is not negative. *)
Definition valid (st : loop_state) : Prop :=
  match st with
  | Outer => True
  | Inner acc size => acc <> [] /\ 0 <= size
  end.

Definition state_size (st : loop_state) : Z :=
  match st with Outer => 0 | Inner _ size => size end.

(** *** Coverage *)

(** The chunk contents, read one after the other, are the decoded texts of
    the siblings, read one after the other. *)
Definition covers (nodes : list Node) (chunks : list Chunk) : Prop :=
  texts nodes = Some (List.concat (map content chunks)).

(** [node] is a tree over [src] whose children, when it has some, cover
    its range exactly, and so on downwards. *)
Fixpoint tiled (src : bytes) (node : Node) {struct node} : bool :=
  (start_byte node <=? end_byte node)%nat
  && (end_byte node <=? List.length src)%nat
  && bytes_eqb (text node) (slice src (start_byte node) (end_byte node))
  && match children node with
     | [] => true
     | _ :: _ => contiguous (start_byte node) (end_byte node) (children node)
     end
  && forallb (tiled src) (children node).

(** The spans follow each other from [lo] to [hi]. *)
Fixpoint spans_tile (lo hi : nat) (spans : list (nat * nat)) : Prop :=
  match spans with
  | [] => lo = hi
  | span :: later =>
      fst span = lo /\ (lo <= snd span)%nat /\ spans_tile (snd span) hi later
  end.

(** The characters [add_chunk] takes for an emission. *)
Definition emission_content (source_code : str) (e : emission) : str :=
  slice source_code (fst (emission_span e)) (snd (emission_span e)).

(** ** Vocabulary of the further properties *)

(** The chunk [c] with its id raised by [k]. *)
Definition shift_id (k : nat) (c : Chunk) : Chunk :=
  {| content := content c;
     metadata := {| id := k + id (metadata c);
                    chunk_type := chunk_type (metadata c);
                    chunk_start_point := chunk_start_point (metadata c);
                    chunk_end_point := chunk_end_point (metadata c);
                    file_name := file_name (metadata c) |} |}.

(** The nodes of a tree, the root first. *)
Fixpoint subtree (node : Node) {struct node} : list Node :=
  node :: flat_map subtree (children node).

(** The nodes of a forest. *)
Definition forest_nodes (nodes : list Node) : list Node :=
  flat_map subtree nodes.

(** What the branches of [process_nodes] guarantee of an emission.  A
    standalone node decodes, is not shorter than [MIN_CHUNK_SIZE], and is
    longer than [MAX_CHUNK_SIZE] only when it has no children.  A merged
    chunk holds at least one node, starts with a node shorter than
    [MIN_CHUNK_SIZE], records the summed size of its nodes, and was still
    below [MIN_CHUNK_SIZE] before its last node came in. *)
Definition well_built (e : emission) : Prop :=
  match e with
  | Standalone node =>
      exists size, node_size node = Some size
                   /\ MIN_CHUNK_SIZE <= size
                   /\ (size <= MAX_CHUNK_SIZE \/ children node = [])
  | Mix current_chunk_nodes current_chunk_size =>
      (exists first tl, current_chunk_nodes = first :: tl
                        /\ sz first < MIN_CHUNK_SIZE)
      /\ current_chunk_size = group_size current_chunk_nodes
      /\ group_size (removelast current_chunk_nodes) < MIN_CHUNK_SIZE
  end.

(** The spans lie in order, one after the other without overlap, inside
    [lo, hi). *)
Fixpoint spans_ordered (lo hi : nat) (spans : list (nat * nat)) : Prop :=
  match spans with
  | [] => (lo <= hi)%nat
  | span :: later =>
      (lo <= fst span)%nat /\ (fst span <= snd span)%nat
      /\ spans_ordered (snd span) hi later
  end.


Module MoreSamples.

Local Open Scope nat_scope.
Local Open Scope string_scope.

(** An e-acute whose two bytes are handed over as two children: the root
    decodes, neither child does. *)
Definition torn_src : bytes := [xc3; xa9].
Definition torn_root : Node :=
  node_at torn_src 0 2 "module"
    [node_at torn_src 0 1 "ERROR" []; node_at torn_src 1 2 "ERROR" []].

(** A parser that always succeeds and makes one node of the whole
    source, under a root that spans it. *)
Definition whole_parser (b : bytes) : option Node :=
  Some (node_at b 0 (List.length b) "module"
          [node_at b 0 (List.length b) "source" []]).

End MoreSamples.

(** The chunk [c] was built by [add_chunk] from nodes of [universe]: a
    merged chunk from a first and a last node, a standalone chunk from one
    node, whose type it bears. *)
Definition built_from (universe : list Node) (source_code : str)
    (fname : string) (c : Chunk) : Prop :=
  file_name (metadata c) = fname
  /\ exists first last,
       In first universe /\ In last universe
       /\ content c = slice source_code (start_byte first) (end_byte last)
       /\ chunk_start_point (metadata c) = start_point first
       /\ chunk_end_point (metadata c) = end_point last
       /\ (chunk_type (metadata c) = "mix"%string
           \/ (first = last /\ chunk_type (metadata c) = type first)).



(** *** Encoding, and [process_code] *)

(** The byte of value [n], for [n] below 256. *)
Definition utf8_byte (n : N) : byte :=
  match Byte.of_N n with
  | Some b => b
  | None => x00
  end.

(** The UTF-8 bytes of one code point; [None] for a surrogate, which
    [str.encode] refuses with [UnicodeEncodeError], and for a number that
    is no code point. *)
Definition utf8_encode_point (cp : N) : option bytes :=
  (if cp <? 128 then Some [utf8_byte cp]
   else if cp <? 2048 then
     Some [utf8_byte (192 + cp / 64); utf8_byte (128 + cp mod 64)]
   else if cp <? 65536 then
     if (55296 <=? cp) && (cp <=? 57343) then None
     else Some [utf8_byte (224 + cp / 4096);
                utf8_byte (128 + (cp / 64) mod 64);
                utf8_byte (128 + cp mod 64)]
   else if cp <? 1114112 then
     Some [utf8_byte (240 + cp / 262144);
           utf8_byte (128 + (cp / 4096) mod 64);
           utf8_byte (128 + (cp / 64) mod 64);
           utf8_byte (128 + cp mod 64)]
   else None)%N.

(** [bytes(s, "utf8")]; [None] stands for [UnicodeEncodeError]. *)
Fixpoint utf8_encode (s : str) : option bytes :=
  match s with
  | [] => Some []
  | cp :: rest =>
      match utf8_encode_point cp, utf8_encode rest with
      | Some b, Some r => Some (b ++ r)
      | _, _ => None
      end
  end.

(** What [process_code] returns: the pair [([], {})] of its [except]
    branch, or the bare list of chunks of its last line. *)
Inductive returned : Type :=
| EmptyPair
| ChunkList (chunks : list Chunk).

Section ProcessCode.

(** [self.parser.parse(b).root_node]; [None] when the parser raises. *)
Variable parse : bytes -> option Node.

(** [process_code(file_name, source_code)], for a [file_name] that is a
    string; [source_code = None] is the default value of the parameter, on
    which [bytes(None, "utf8")] raises [TypeError].  The [try] covers the
    encoding and the parse; [get_chunks] runs outside of it, so what
    [get_chunks] raises leaves [process_code].  [limit] as for
    [Imp.get_chunks]. *)
Definition process_code (fuel : nat) (limit : nat) (fname : string)
    (source_code : option str) : Imp.outcome returned :=
  let tree :=
    match source_code with
    | None => None
    | Some s =>
        match utf8_encode s with
        | None => None
        | Some b => parse b
        end
    end in
  match tree with
  | None => Imp.Ret EmptyPair
  | Some root_node =>
      match Imp.get_chunks fuel limit root_node fname with
      | Imp.Ret chunks => Imp.Ret (ChunkList chunks)
      | Imp.Raise e => Imp.Raise e
      | Imp.OutOfFuel => Imp.OutOfFuel
      end
  end.

End ProcessCode.

(** A parser that hands back the bytes it was given as the text of the
    root, as tree-sitter does. *)
Definition keeps_source (parse : bytes -> option Node) : Prop :=
  forall b root_node, parse b = Some root_node -> text root_node = b.

(** The text of [node] decodes. *)
Definition is_decodable (node : Node) : bool :=
  match Utf8.decode (text node) with
  | Some _ => true
  | None => false
  end.

(** * Properties *)

(** ** UTF-8 decoding, by example *)

Example decode_euro_sign :
  Utf8.decode [xe2; x82; xac] = Some [8364%N].
Proof. reflexivity. Qed.

Example decode_four_bytes :
  Utf8.decode [xf0; x9f; x98; x80] = Some [128512%N].
Proof. reflexivity. Qed.

Example decode_keeps_byte_order_mark :
  Utf8.decode [xef; xbb; xbf; x61] = Some [65279%N; 97%N].
Proof. reflexivity. Qed.

Example decode_rejects_overlong : Utf8.decode [xc0; x80] = None.
Proof. reflexivity. Qed.

Example decode_rejects_surrogate : Utf8.decode [xed; xa0; x80] = None.
Proof. reflexivity. Qed.

Example decode_rejects_above_10FFFF :
  Utf8.decode [xf4; x90; x80; x80] = None.
Proof. reflexivity. Qed.

Example decode_rejects_truncated : Utf8.decode [xe2; x82] = None.
Proof. reflexivity. Qed.

Example decode_rejects_lone_continuation : Utf8.decode [x80] = None.
Proof. reflexivity. Qed.

(** ** The loops, equation by equation *)

Section LoopFacts.

Variable src : str.
Variable f : string.


Lemma process_children_unfold (node : Node) (chunks : list Chunk) :
  process_children src f node chunks = process_nodes src f (children node) chunks.
Proof. destruct node; reflexivity. Qed.

Lemma children_trace_unfold (node : Node) :
  children_trace node = emissions (children node).
Proof. destruct node; reflexivity. Qed.

(** Once the accumulator has reached [MIN_CHUNK_SIZE] the inner loop is
    over: the accumulator is flushed and the outer loop takes over. *)
Lemma process_siblings_closed recurse nodes acc size chunks :
  MIN_CHUNK_SIZE <= size ->
  process_siblings src f recurse nodes (Inner acc size) chunks
  = process_siblings src f recurse nodes Outer (flush src f acc chunks).
Proof.
  intros Hsize. apply Z.ltb_ge in Hsize.
  destruct nodes as [|node rest]; simpl.
  - reflexivity.
  - rewrite Hsize. reflexivity.
Qed.

Lemma emit_flush_trace acc size chunks :
  fold_left (emit src f) (flush_trace acc size) chunks = flush src f acc chunks.
Proof. destruct acc; reflexivity. Qed.

(** The chunks are the emissions, one chunk for each, in order. *)
Lemma process_siblings_trace recurse trace nodes :
  (forall node, In node nodes -> forall chunks,
      recurse node chunks = fold_left (emit src f) (trace node) chunks) ->
  forall st chunks,
    process_siblings src f recurse nodes st chunks
    = fold_left (emit src f) (siblings_trace trace nodes st) chunks.
Proof.
  induction nodes as [|node rest IH]; intros Hrec st chunks.
  - destruct st; simpl; [reflexivity|].
    symmetry; apply emit_flush_trace.
  - assert (Hrest : forall n, In n rest -> forall c,
               recurse n c = fold_left (emit src f) (trace n) c)
      by (intros n Hn; apply Hrec; right; exact Hn).
    specialize (IH Hrest).
    assert (Houter : forall c,
      match Utf8.decode (text node) with
      | None => process_siblings src f recurse rest Outer c
      | Some s =>
          if 0 + len s <? MIN_CHUNK_SIZE
          then process_siblings src f recurse rest
                 (Inner ([] ++ [node]) (0 + len s)) c
          else if (len s >? MAX_CHUNK_SIZE) && (len (children node) >? 0)
          then process_siblings src f recurse rest Outer (recurse node c)
          else process_siblings src f recurse rest Outer
                 (add_chunk src f (start_byte node) (end_byte node)
                    (start_point node) (end_point node) (type node) c)
      end
      = fold_left (emit src f)
          match Utf8.decode (text node) with
          | None => siblings_trace trace rest Outer
          | Some s =>
              if 0 + len s <? MIN_CHUNK_SIZE
              then siblings_trace trace rest
                     (Inner ([] ++ [node]) (0 + len s))
              else if (len s >? MAX_CHUNK_SIZE)
                      && (len (children node) >? 0)
              then trace node ++ siblings_trace trace rest Outer
              else Standalone node :: siblings_trace trace rest Outer
          end c).
    { intros c. destruct (Utf8.decode (text node)) as [s|]; [|apply IH].
      destruct (0 + len s <? MIN_CHUNK_SIZE); [apply IH|].
      destruct ((len s >? MAX_CHUNK_SIZE) && (len (children node) >? 0)).
      - rewrite fold_left_app, <- Hrec by (left; reflexivity). apply IH.
      - simpl fold_left. apply IH. }
    destruct st as [|acc size]; cbn [process_siblings siblings_trace].
    + apply Houter.
    + destruct (size <? MIN_CHUNK_SIZE).
      * destruct (Utf8.decode (text node)); apply IH.
      * rewrite fold_left_app, emit_flush_trace. apply Houter.
Qed.

Lemma process_children_trace (node : Node) :
  forall chunks,
    process_children src f node chunks
    = fold_left (emit src f) (children_trace node) chunks.
Proof.
  induction node as [node IH] using Node_induction. intros chunks.
  destruct node as [sb eb sp ep ty tx kids]; simpl in *.
  apply process_siblings_trace.
  intros n Hn. exact (proj1 (Forall_forall _ _) IH n Hn).
Qed.

Theorem process_nodes_emissions (nodes : list Node) (chunks : list Chunk) :
  process_nodes src f nodes chunks = fold_left (emit src f) (emissions nodes) chunks.
Proof.
  apply process_siblings_trace.
  intros node _. apply process_children_trace.
Qed.

End LoopFacts.

(** ** Chunk numbering *)

Section Numbering.

Variable src : str.
Variable f : string.

Lemma add_chunk_numbered sb eb sp ep ty chunks :
  numbered chunks -> numbered (add_chunk src f sb eb sp ep ty chunks).
Proof.
  unfold numbered, add_chunk. intros H.
  rewrite map_app, length_app, seq_app, H. reflexivity.
Qed.

Lemma flush_numbered acc chunks :
  numbered chunks -> numbered (flush src f acc chunks).
Proof.
  destruct acc; simpl; [trivial|]. apply add_chunk_numbered.
Qed.

Lemma emit_numbered e chunks :
  numbered chunks -> numbered (emit src f chunks e).
Proof.
  destruct e; simpl; [apply flush_numbered | apply add_chunk_numbered].
Qed.

Lemma process_nodes_numbered nodes chunks :
  numbered chunks -> numbered (process_nodes src f nodes chunks).
Proof.
  rewrite process_nodes_emissions.
  generalize (emissions nodes). intros es. revert chunks.
  induction es as [|e es IH]; intros chunks H; simpl; [exact H|].
  apply IH, emit_numbered, H.
Qed.

End Numbering.

(** C6. The ids of the chunks [get_chunks] returns are 0, 1, 2, ... in
    emission order: strictly increasing, without a gap and unique, however
    deep the recursion went. *)
Theorem get_chunks_ids_sequential (root_node : Node) (fname : string) :
  map (fun c => id (metadata c)) (get_chunks root_node fname)
  = seq 0 (List.length (get_chunks root_node fname)).
Proof.
  unfold get_chunks.
  destruct (Utf8.decode (text root_node)) as [source_code|]; [|reflexivity].
  apply process_nodes_numbered. reflexivity.
Qed.

(** ** Decode failure of the root *)

(** C7. When the root's text is not UTF-8, [get_chunks] returns the empty
    list, and it does so by returning: nothing is raised and no chunking
    takes place, whatever the fuel and whatever the recursion limit. *)
Theorem get_chunks_undecodable_root (root_node : Node) (fname : string) :
  Utf8.decode (text root_node) = None ->
  get_chunks root_node fname = []
  /\ forall fuel limit,
       Imp.get_chunks fuel limit root_node fname = Imp.Ret [].
Proof.
  intros H. unfold get_chunks, Imp.get_chunks, Imp.decode.
  rewrite H. split; reflexivity.
Qed.

Lemma get_chunks_undecodable_root_witness :
  Utf8.decode (text Samples.broken_root) = None
  /\ get_chunks Samples.broken_root "broken.py" = []
  /\ forall fuel limit,
       Imp.get_chunks fuel limit Samples.broken_root "broken.py"
       = Imp.Ret [].
Proof.
  split; [reflexivity|].
  apply (get_chunks_undecodable_root Samples.broken_root "broken.py").
  reflexivity.
Defined.

(** ** A lone short node *)

(** C10. A sibling list of one decodable node shorter than
    [MIN_CHUNK_SIZE] gives exactly one chunk, of type ["mix"] and not of
    the node's type, over the node's own span: at any depth, and so for
    the children of the root. *)
Theorem get_chunks_single_small_node
    (source_code : str) (fname : string) (node : Node) (s : str) :
  Utf8.decode (text node) = Some s ->
  len s < MIN_CHUNK_SIZE ->
  (forall chunks,
      process_nodes source_code fname [node] chunks
      = chunks ++ [chunk_of source_code fname (List.length chunks)
                     (start_byte node) (end_byte node)
                     (start_point node) (end_point node) "mix"])
  /\ (forall root_node,
        Utf8.decode (text root_node) = Some source_code ->
        children root_node = [node] ->
        get_chunks root_node fname
        = [chunk_of source_code fname 0 (start_byte node) (end_byte node)
             (start_point node) (end_point node) "mix"]).
Proof.
  intros Hnode Hsmall. apply Z.ltb_lt in Hsmall.
  assert (Hlist : forall chunks,
    process_nodes source_code fname [node] chunks
    = chunks ++ [chunk_of source_code fname (List.length chunks)
                   (start_byte node) (end_byte node)
                   (start_point node) (end_point node) "mix"]).
  { intros chunks. unfold process_nodes. cbn [process_siblings].
    rewrite Hnode, Z.add_0_l, Hsmall. reflexivity. }
  split; [exact Hlist|].
  intros root_node Hroot Hkids.
  unfold get_chunks. rewrite Hroot, Hkids. apply Hlist.
Qed.

Lemma get_chunks_single_small_node_witness :
  get_chunks Samples.single_root "one.py"
  = [chunk_of [120; 61; 49]%N "one.py" 0 0 3 (0, 0)%nat (0, 3)%nat "mix"]
  /\ type Samples.single_child = "expression_statement"%string.
Proof.
  split; [|reflexivity].
  apply (get_chunks_single_small_node [120; 61; 49]%N "one.py"
           Samples.single_child [120; 61; 49]%N);
    reflexivity.
Defined.

(** ** The end-to-end example *)

(** Reads [node_size node = Some n] as a fact on the decoded text. *)
Lemma node_size_decode (node : Node) (n : Z) :
  node_size node = Some n ->
  exists s, Utf8.decode (text node) = Some s /\ len s = n.
Proof.
  unfold node_size. destruct (Utf8.decode (text node)) as [s|]; simpl.
  - intros H; injection H as H. exists s. split; [reflexivity|exact H].
  - discriminate.
Qed.

(** C1, as the code has it.  With children of 300, 300 and 3000 characters
    [get_chunks] returns one chunk: the inner loop, which stops only at
    [MIN_CHUNK_SIZE] or at the end of the list, pulls the third child into
    the accumulator of the first two (300 + 300 < 1024), so the third child
    is merged whole and its children are never visited. *)
Theorem get_chunks_e2e_single_mix
    (root_node a b c : Node) (fname : string) (source_code : str) :
  Utf8.decode (text root_node) = Some source_code ->
  children root_node = [a; b; c] ->
  node_size a = Some 300 -> node_size b = Some 300 ->
  node_size c = Some 3000 ->
  get_chunks root_node fname
  = [chunk_of source_code fname 0 (start_byte a) (end_byte c)
       (start_point a) (end_point c) "mix"].
Proof.
  intros Hroot Hkids Ha Hb Hc.
  apply node_size_decode in Ha as (sa & Ha & La).
  apply node_size_decode in Hb as (sb & Hb & Lb).
  apply node_size_decode in Hc as (sc & Hc & Lc).
  unfold get_chunks, process_nodes. rewrite Hroot, Hkids.
  cbn [process_siblings]. rewrite Ha, Hb, Hc.
  rewrite Z.add_0_l, La, Lb, Lc. reflexivity.
Qed.

Lemma get_chunks_e2e_single_mix_witness :
  get_chunks Samples.e2e_root "example.py"
  = [chunk_of (repeat 97%N 3600) "example.py" 0 0 3600
       (0, 0)%nat (0, 3600)%nat "mix"].
Proof.
  apply (get_chunks_e2e_single_mix Samples.e2e_root
           Samples.e2e_a Samples.e2e_b Samples.e2e_c);
    vm_compute; reflexivity.
Defined.

(** C1, as stated, fails on the sample tree: one chunk comes out, not
    three. *)
Lemma get_chunks_e2e_not_three_chunks :
  e2e_shape Samples.e2e_root Samples.e2e_a Samples.e2e_b Samples.e2e_c
            Samples.e2e_g1 Samples.e2e_g2
  /\ well_formed_root Samples.e2e_root = true
  /\ ~ e2e_expected Samples.e2e_g1 Samples.e2e_g2
         (get_chunks Samples.e2e_root "example.py").
Proof.
  split; [|split].
  - unfold e2e_shape, decodable.
    repeat split; try (vm_compute; reflexivity).
    vm_compute. discriminate.
  - vm_compute; reflexivity.
  - unfold e2e_expected. vm_compute. discriminate.
Qed.

(** ** Passing a prefix of the siblings *)

Ltac loop_cases IH :=
  repeat match goal with
    | |- context [match ?st with Outer => _ | Inner _ _ => _ end] =>
        is_var st; destruct st
    | |- context [match Utf8.decode ?t with Some _ => _ | None => _ end] =>
        destruct (Utf8.decode t)
    | |- context [if ?b then _ else _] => destruct b eqn:?
    end;
  try (apply IH; assumption).

Section Prefix.

Variable src : str.
Variable f : string.

(** When no accumulator is open after the siblings [pre], what follows
    is chunked on its own, starting in the outer loop. *)
Lemma process_siblings_app recurse pre nodes :
  forall st chunks,
    merging (state_after pre st) = false ->
    process_siblings src f recurse (pre ++ nodes) st chunks
    = process_siblings src f recurse nodes Outer
        (process_siblings src f recurse pre st chunks).
Proof.
  induction pre as [|node rest IH]; intros st chunks Hst.
  - destruct st as [|acc size]; [reflexivity|].
    simpl in Hst. apply Z.ltb_ge in Hst.
    apply process_siblings_closed, Hst.
  - cbn [app process_siblings state_after] in *.
    loop_cases IH.
Qed.

Lemma process_nodes_app pre nodes chunks :
  merging (state_after pre Outer) = false ->
  process_nodes src f (pre ++ nodes) chunks
  = process_nodes src f nodes (process_nodes src f pre chunks).
Proof. apply process_siblings_app. Qed.

End Prefix.

Lemma siblings_trace_closed trace nodes acc size :
  MIN_CHUNK_SIZE <= size ->
  siblings_trace trace nodes (Inner acc size)
  = flush_trace acc size ++ siblings_trace trace nodes Outer.
Proof.
  intros Hsize. apply Z.ltb_ge in Hsize.
  destruct nodes as [|node rest]; simpl.
  - symmetry; apply app_nil_r.
  - rewrite Hsize. reflexivity.
Qed.

Lemma siblings_trace_app trace pre nodes :
  forall st,
    merging (state_after pre st) = false ->
    siblings_trace trace (pre ++ nodes) st
    = siblings_trace trace pre st ++ siblings_trace trace nodes Outer.
Proof.
  induction pre as [|node rest IH]; intros st Hst.
  - destruct st as [|acc size]; [reflexivity|].
    simpl in Hst. apply Z.ltb_ge in Hst.
    apply siblings_trace_closed, Hst.
  - cbn [app siblings_trace state_after] in *.
    loop_cases IH;
      rewrite <- ?app_assoc, <- ?app_comm_cons;
      f_equal; try f_equal; apply IH; assumption.
Qed.

Lemma emissions_app pre nodes :
  merging (state_after pre Outer) = false ->
  emissions (pre ++ nodes) = emissions pre ++ emissions nodes.
Proof. apply siblings_trace_app. Qed.

(** ** What an open accumulator does to the next node *)

(** The first chunk emitted from inside the inner loop holds the whole
    accumulator. *)
Lemma accumulator_is_emitted trace node nodes :
  forall acc size,
    In node acc ->
    exists e, In e (siblings_trace trace nodes (Inner acc size))
              /\ In node (constituents e) /\ emission_type e = "mix"%string.
Proof.
  induction nodes as [|next rest IH]; intros acc size Hin.
  - exists (Mix acc size). cbn [siblings_trace].
    destruct acc as [|first tl]; [contradiction|].
    split; [left; reflexivity|split; [exact Hin|reflexivity]].
  - cbn [siblings_trace]. destruct (size <? MIN_CHUNK_SIZE).
    + destruct (Utf8.decode (text next)); apply IH; [|exact Hin].
      apply in_or_app; left; exact Hin.
    + exists (Mix acc size).
      destruct acc as [|first tl]; [contradiction|].
      split; [left; reflexivity|split; [exact Hin|reflexivity]].
Qed.

Lemma later_emission (P : emission -> Prop) (before es : list emission) :
  (exists e, In e es /\ P e) -> exists e, In e (before ++ es) /\ P e.
Proof.
  intros (e & He & HP). exists e.
  split; [apply in_or_app; right; exact He|exact HP].
Qed.

(** A decodable node that follows an accumulator still below
    [MIN_CHUNK_SIZE] is pulled into it, whatever its size and whether it
    has children or not: it ends in a chunk of type ["mix"]. *)
Lemma open_accumulator_pulls_next_node trace node post s :
  Utf8.decode (text node) = Some s ->
  forall pre st,
    merging (state_after pre st) = true ->
    exists e, In e (siblings_trace trace (pre ++ node :: post) st)
              /\ In node (constituents e) /\ emission_type e = "mix"%string.
Proof.
  intros Hdec. induction pre as [|next rest IH]; intros st Hst.
  - destruct st as [|acc size]; simpl in Hst; [discriminate|].
    cbn [app siblings_trace]. rewrite Hst, Hdec.
    apply accumulator_is_emitted. apply in_or_app; right; left; reflexivity.
  - cbn [app siblings_trace state_after] in *.
    loop_cases IH;
      repeat first
        [ apply IH; assumption
        | apply later_emission
        | apply (later_emission _ [Standalone next]) ].
Qed.

(** ** Oversized nodes *)

(** C3, as the code has it.  An oversized node with children that the
    outer loop reaches, that is, one that does not follow an accumulator
    still below [MIN_CHUNK_SIZE], is replaced by the chunking of its
    children: the siblings before it, its children and the siblings after
    it are chunked one after the other, and no emission is made for the
    node itself. *)
Theorem oversized_parent_is_split
    (src : str) (f : string) (pre post : list Node) (node : Node) (s : str)
    (chunks : list Chunk) :
  Utf8.decode (text node) = Some s ->
  len s > MAX_CHUNK_SIZE ->
  children node <> [] ->
  merging (state_after pre Outer) = false ->
  process_nodes src f (pre ++ node :: post) chunks
  = process_nodes src f post
      (process_nodes src f (children node) (process_nodes src f pre chunks))
  /\ emissions (pre ++ node :: post)
     = emissions pre ++ emissions (children node) ++ emissions post.
Proof.
  intros Hdec Hbig Hkids Hpre.
  assert (Hmin : (0 + len s <? MIN_CHUNK_SIZE) = false)
    by (apply Z.ltb_ge; unfold MIN_CHUNK_SIZE, MAX_CHUNK_SIZE in *; lia).
  assert (Hmax : (len s >? MAX_CHUNK_SIZE) = true)
    by (apply Z.gtb_lt; lia).
  assert (Hlen : (len (children node) >? 0) = true).
  { apply Z.gtb_lt. destruct (children node); [congruence|].
    unfold len; simpl List.length; lia. }
  split.
  - rewrite process_nodes_app by exact Hpre.
    unfold process_nodes at 1. cbn [process_siblings].
    rewrite Hdec, Hmin, Hmax, Hlen. simpl andb. cbv iota.
    rewrite process_children_unfold. reflexivity.
  - rewrite emissions_app by exact Hpre. f_equal.
    unfold emissions at 1. cbn [siblings_trace].
    rewrite Hdec, Hmin, Hmax, Hlen. simpl andb. cbv iota.
    rewrite children_trace_unfold. reflexivity.
Qed.

Lemma oversized_parent_is_split_witness :
  chunk_types (get_chunks Samples.mid_root "mid.py")
  = ["function_definition"; "function_definition"; "function_definition";
     "mix"]%string
  /\ emissions (children Samples.mid_root)
     = [Standalone Samples.mid_first; Standalone Samples.mid_k1;
        Standalone Samples.mid_k2; Mix [Samples.mid_last] 300].
Proof.
  destruct (oversized_parent_is_split (repeat 97%N 4400) "mid.py"
              [Samples.mid_first] [Samples.mid_last] Samples.mid_big
              (repeat 97%N 3000) [])
    as [Hchunks Hems].
  - vm_compute; reflexivity.
  - vm_compute; reflexivity.
  - discriminate.
  - vm_compute; reflexivity.
  - split.
    + unfold get_chunks.
      replace (Utf8.decode (text Samples.mid_root))
        with (Some (repeat 97%N 4400)) by (vm_compute; reflexivity).
      change (children Samples.mid_root)
        with ([Samples.mid_first] ++ Samples.mid_big :: [Samples.mid_last]).
      rewrite Hchunks. vm_compute; reflexivity.
    + change (children Samples.mid_root)
        with ([Samples.mid_first] ++ Samples.mid_big :: [Samples.mid_last]).
      rewrite Hems. vm_compute; reflexivity.
Defined.

(** C3, as stated, fails when the oversized node follows a short sibling:
    the inner loop pulls it into the merged chunk and its children are
    never chunked. *)
Lemma oversized_parent_merged_not_split :
  well_formed_root Samples.split_root = true
  /\ In Samples.split_big (children Samples.split_root)
  /\ oversized Samples.split_big
  /\ children Samples.split_big <> []
  /\ ~ never_chunked (children Samples.split_root) Samples.split_big
  /\ get_chunks Samples.split_root "split.py"
     = [chunk_of (repeat 97%N 3300) "split.py" 0 0 3300
          (0, 0)%nat (0, 3300)%nat "mix"].
Proof.
  split; [vm_compute; reflexivity|].
  split; [right; left; reflexivity|].
  split; [exists 3000; split; [vm_compute; reflexivity|reflexivity]|].
  split; [discriminate|].
  split; [|vm_compute; reflexivity].
  intros H.
  apply (H (Mix [Samples.split_small; Samples.split_big] 3300)).
  - vm_compute. left; reflexivity.
  - right; left; reflexivity.
Qed.

(** C8, as the code has it.  An oversized leaf that the outer loop reaches,
    that is, one that does not follow an accumulator still below
    [MIN_CHUNK_SIZE], gives exactly one chunk, over its own span and of its
    own type, between the chunks of the siblings before it and those of the
    siblings after it. *)
Theorem oversized_leaf_is_standalone
    (src : str) (f : string) (pre post : list Node) (node : Node) (s : str)
    (chunks : list Chunk) :
  Utf8.decode (text node) = Some s ->
  len s > MAX_CHUNK_SIZE ->
  children node = [] ->
  merging (state_after pre Outer) = false ->
  process_nodes src f (pre ++ node :: post) chunks
  = process_nodes src f post
      (add_chunk src f (start_byte node) (end_byte node)
         (start_point node) (end_point node) (type node)
         (process_nodes src f pre chunks))
  /\ emissions (pre ++ node :: post)
     = emissions pre ++ Standalone node :: emissions post.
Proof.
  intros Hdec Hbig Hkids Hpre.
  assert (Hmin : (0 + len s <? MIN_CHUNK_SIZE) = false)
    by (apply Z.ltb_ge; unfold MIN_CHUNK_SIZE, MAX_CHUNK_SIZE in *; lia).
  split.
  - rewrite process_nodes_app by exact Hpre.
    unfold process_nodes at 1. cbn [process_siblings].
    rewrite Hdec, Hmin, Hkids. rewrite andb_false_r. reflexivity.
  - rewrite emissions_app by exact Hpre. f_equal.
    unfold emissions at 1. cbn [siblings_trace].
    rewrite Hdec, Hmin, Hkids. rewrite andb_false_r. reflexivity.
Qed.

Lemma oversized_leaf_is_standalone_witness :
  ids_and_types (get_chunks Samples.mid_leaf_root "leaf.py")
  = [(0%nat, "function_definition"); (1%nat, "string"); (2%nat, "mix")]%string
  /\ emissions (children Samples.mid_leaf_root)
     = [Standalone Samples.mid_first; Standalone Samples.mid_leaf;
        Mix [Samples.mid_last] 300].
Proof.
  destruct (oversized_leaf_is_standalone (repeat 97%N 4400) "leaf.py"
              [Samples.mid_first] [Samples.mid_last] Samples.mid_leaf
              (repeat 97%N 3000) [])
    as [Hchunks Hems].
  - vm_compute; reflexivity.
  - vm_compute; reflexivity.
  - reflexivity.
  - vm_compute; reflexivity.
  - split.
    + unfold get_chunks.
      replace (Utf8.decode (text Samples.mid_leaf_root))
        with (Some (repeat 97%N 4400)) by (vm_compute; reflexivity).
      change (children Samples.mid_leaf_root)
        with ([Samples.mid_first] ++ Samples.mid_leaf :: [Samples.mid_last]).
      rewrite Hchunks. vm_compute; reflexivity.
    + change (children Samples.mid_leaf_root)
        with ([Samples.mid_first] ++ Samples.mid_leaf :: [Samples.mid_last]).
      rewrite Hems. vm_compute; reflexivity.
Defined.

(** C8, as stated, fails when the oversized leaf follows a short sibling:
    it ends in the merged chunk and no chunk bears its type. *)
Lemma oversized_leaf_merged_not_standalone :
  well_formed_root Samples.leaf_root = true
  /\ In Samples.leaf_big (children Samples.leaf_root)
  /\ oversized Samples.leaf_big
  /\ children Samples.leaf_big = []
  /\ ~ emitted_alone (children Samples.leaf_root) Samples.leaf_big
  /\ get_chunks Samples.leaf_root "leaf.py"
     = [chunk_of (repeat 97%N 3300) "leaf.py" 0 0 3300
          (0, 0)%nat (0, 3300)%nat "mix"].
Proof.
  split; [vm_compute; reflexivity|].
  split; [right; left; reflexivity|].
  split; [exists 3000; split; [vm_compute; reflexivity|reflexivity]|].
  split; [reflexivity|].
  split; [|vm_compute; reflexivity].
  unfold emitted_alone.
  replace (emissions (children Samples.leaf_root))
    with [Mix [Samples.leaf_small; Samples.leaf_big] 3300]
    by (vm_compute; reflexivity).
  intros [H|[]]. discriminate.
Qed.

(** ** Undecodable nodes *)

Section Skip.

Variable src : str.
Variable f : string.

(** Both loops step over a node that does not decode and change
    nothing. *)
Lemma process_siblings_skip recurse pre bad post :
  Utf8.decode (text bad) = None ->
  forall st chunks,
    process_siblings src f recurse (pre ++ bad :: post) st chunks
    = process_siblings src f recurse (pre ++ post) st chunks.
Proof.
  intros Hbad. induction pre as [|node rest IH]; intros st chunks.
  - cbn [app process_siblings]. rewrite Hbad.
    destruct st as [|acc size]; [reflexivity|].
    destruct (size <? MIN_CHUNK_SIZE) eqn:Hsize; [reflexivity|].
    symmetry. apply process_siblings_closed, Z.ltb_ge, Hsize.
  - cbn [app process_siblings]. loop_cases IH.
Qed.

End Skip.

Lemma siblings_trace_skip trace pre bad post :
  Utf8.decode (text bad) = None ->
  forall st,
    siblings_trace trace (pre ++ bad :: post) st
    = siblings_trace trace (pre ++ post) st.
Proof.
  intros Hbad. induction pre as [|node rest IH]; intros st.
  - cbn [app siblings_trace]. rewrite Hbad.
    destruct st as [|acc size]; [reflexivity|].
    destruct (size <? MIN_CHUNK_SIZE) eqn:Hsize; [reflexivity|].
    symmetry. apply siblings_trace_closed, Z.ltb_ge, Hsize.
  - cbn [app siblings_trace]. loop_cases IH; rewrite ?IH; reflexivity.
Qed.

(** Only nodes that decode ever enter an accumulator or are emitted. *)
Lemma flush_trace_decodable acc size :
  Forall decodable acc -> Forall built_from_decodable (flush_trace acc size).
Proof.
  intros H. destruct acc; [constructor|].
  constructor; [exact H|constructor].
Qed.

Lemma siblings_trace_decodable trace nodes :
  (forall node, In node nodes -> Forall built_from_decodable (trace node)) ->
  forall st,
    match st with
    | Outer => True
    | Inner acc _ => Forall decodable acc
    end ->
    Forall built_from_decodable (siblings_trace trace nodes st).
Proof.
  induction nodes as [|node rest IH]; intros Hrec st Hst.
  - destruct st; [constructor|]. apply flush_trace_decodable, Hst.
  - assert (Hrest : forall n, In n rest ->
                      Forall built_from_decodable (trace n))
      by (intros n Hn; apply Hrec; right; exact Hn).
    specialize (IH Hrest).
    assert (Hnode := Hrec node (or_introl eq_refl)).
    cbn [siblings_trace].
    destruct (Utf8.decode (text node)) as [s|] eqn:Hdec.
    + assert (Hd : decodable node)
        by (unfold decodable; rewrite Hdec; discriminate).
      assert (Houter : Forall built_from_decodable
                (if 0 + len s <? MIN_CHUNK_SIZE
                 then siblings_trace trace rest
                        (Inner ([] ++ [node]) (0 + len s))
                 else if (len s >? MAX_CHUNK_SIZE)
                         && (len (children node) >? 0)
                 then trace node ++ siblings_trace trace rest Outer
                 else Standalone node :: siblings_trace trace rest Outer)).
      { destruct (0 + len s <? MIN_CHUNK_SIZE).
        - apply IH. constructor; [exact Hd|constructor].
        - destruct ((len s >? MAX_CHUNK_SIZE)
                    && (len (children node) >? 0)).
          + apply Forall_app. split; [exact Hnode|apply IH; exact I].
          + constructor; [|apply IH; exact I].
            constructor; [exact Hd|constructor]. }
      destruct st as [|acc size]; [exact Houter|].
      destruct (size <? MIN_CHUNK_SIZE).
      * apply IH. apply Forall_app. split; [exact Hst|].
        constructor; [exact Hd|constructor].
      * apply Forall_app. split; [|exact Houter].
        apply flush_trace_decodable, Hst.
    + destruct st as [|acc size]; [apply IH; exact I|].
      destruct (size <? MIN_CHUNK_SIZE); [apply IH; exact Hst|].
      apply Forall_app. split; [|apply IH; exact I].
      apply flush_trace_decodable, Hst.
Qed.

Lemma children_trace_decodable (node : Node) :
  Forall built_from_decodable (children_trace node).
Proof.
  induction node as [node IH] using Node_induction.
  rewrite children_trace_unfold.
  apply siblings_trace_decodable; [|exact I].
  intros n Hn. exact (proj1 (Forall_forall _ _) IH n Hn).
Qed.

Lemma emissions_decodable (nodes : list Node) :
  Forall built_from_decodable (emissions nodes).
Proof.
  apply siblings_trace_decodable; [|exact I].
  intros node _. apply children_trace_decodable.
Qed.

(** C5, as the code has it.  A node whose text does not decode is stepped
    over: the chunks and the emissions, with the accumulator sizes they
    record, are those of the sibling list without it, so it adds nothing to
    an accumulator, is not recursed into and gives no chunk; and no chunk is
    built from it.  (Its bytes can still lie inside the span of a merged
    chunk that runs from a sibling before it to a sibling after it.) *)
Theorem undecodable_node_is_stepped_over
    (src : str) (f : string) (pre post : list Node) (bad : Node)
    (chunks : list Chunk) :
  Utf8.decode (text bad) = None ->
  process_nodes src f (pre ++ bad :: post) chunks
  = process_nodes src f (pre ++ post) chunks
  /\ emissions (pre ++ bad :: post) = emissions (pre ++ post)
  /\ never_chunked (pre ++ bad :: post) bad.
Proof.
  intros Hbad. split; [|split].
  - apply process_siblings_skip, Hbad.
  - apply siblings_trace_skip, Hbad.
  - intros e He Hin.
    pose proof (emissions_decodable (pre ++ bad :: post)) as Hall.
    pose proof (proj1 (Forall_forall _ _) Hall e He) as Hcons.
    pose proof (proj1 (Forall_forall _ _) Hcons bad Hin) as Hdec.
    apply Hdec, Hbad.
Qed.

Lemma undecodable_node_is_stepped_over_witness :
  get_chunks Samples.skip_root "skip.py"
  = process_nodes [97; 233; 98]%N "skip.py"
      [Samples.skip_a; Samples.skip_b] []
  /\ emissions (children Samples.skip_root)
     = [Mix [Samples.skip_a; Samples.skip_b] 2].
Proof.
  destruct (undecodable_node_is_stepped_over [97; 233; 98]%N "skip.py"
              [Samples.skip_a] [Samples.skip_b] Samples.skip_bad [])
    as (Hchunks & Hems & _).
  - reflexivity.
  - split.
    + exact Hchunks.
    + change (children Samples.skip_root)
        with ([Samples.skip_a] ++ Samples.skip_bad :: [Samples.skip_b]).
      rewrite Hems. reflexivity.
Defined.

(** C5, as stated, fails on the span: the merged chunk runs from the
    sibling before the undecodable node to the sibling after it, over the
    bytes of the undecodable node. *)
Lemma undecodable_node_inside_mix_span :
  well_formed_root Samples.skip_root = true
  /\ children Samples.skip_root
     = [Samples.skip_a; Samples.skip_bad; Samples.skip_b]
  /\ decodable Samples.skip_a /\ decodable Samples.skip_b
  /\ Utf8.decode (text Samples.skip_bad) = None
  /\ ~ spans_avoid (children Samples.skip_root) Samples.skip_bad
  /\ get_chunks Samples.skip_root "skip.py"
     = [chunk_of [97; 233; 98]%N "skip.py" 0 0 4
          (0, 0)%nat (0, 4)%nat "mix"].
Proof.
  split; [reflexivity|].
  split; [reflexivity|].
  split; [vm_compute; discriminate|].
  split; [vm_compute; discriminate|].
  split; [reflexivity|].
  split; [|reflexivity].
  intros H.
  destruct (H (Mix [Samples.skip_a; Samples.skip_b] 2)) as [Hout|Hout].
  - left; reflexivity.
  - vm_compute in Hout. lia.
  - vm_compute in Hout. lia.
Qed.

(** ** Short siblings *)

Section Small.

Variable trace : Node -> list emission.

Lemma small_decode node :
  small node ->
  exists s, Utf8.decode (text node) = Some s
            /\ len s = sz node /\ 0 <= sz node < MIN_CHUNK_SIZE.
Proof.
  intros (size & Hsize & Hlt). unfold sz. rewrite Hsize.
  apply node_size_decode in Hsize as (s & Hdec & Hlen).
  exists s. repeat split; try assumption.
  subst size. unfold len. lia.
Qed.

Lemma group_size_cons node group :
  group_size (node :: group) = sz node + group_size group.
Proof.
  unfold sz. simpl. destruct (node_size node); reflexivity.
Qed.

Lemma group_size_app g1 g2 :
  group_size (g1 ++ g2) = group_size g1 + group_size g2.
Proof.
  induction g1 as [|node g1 IH]; [reflexivity|].
  rewrite <- app_comm_cons, !group_size_cons, IH. lia.
Qed.

Lemma group_size_single node : group_size [node] = sz node.
Proof. rewrite group_size_cons. simpl. lia. Qed.

(** The three moves of the loops on a short node. *)
Lemma small_outer node rest :
  small node ->
  siblings_trace trace (node :: rest) Outer
  = siblings_trace trace rest (Inner [node] (sz node)).
Proof.
  intros H. apply small_decode in H as (s & Hdec & Hlen & Hrange).
  cbn [siblings_trace]. rewrite Hdec, Z.add_0_l, Hlen.
  destruct (Z.ltb_spec (sz node) MIN_CHUNK_SIZE); [reflexivity|lia].
Qed.

Lemma small_inner_open node rest acc size :
  small node -> size < MIN_CHUNK_SIZE ->
  siblings_trace trace (node :: rest) (Inner acc size)
  = siblings_trace trace rest (Inner (acc ++ [node]) (size + sz node)).
Proof.
  intros H Hsize. apply small_decode in H as (s & Hdec & Hlen & _).
  cbn [siblings_trace]. rewrite Hdec, Hlen.
  destruct (Z.ltb_spec size MIN_CHUNK_SIZE); [reflexivity|lia].
Qed.

Lemma small_inner_closed node rest acc size :
  small node -> MIN_CHUNK_SIZE <= size ->
  siblings_trace trace (node :: rest) (Inner acc size)
  = flush_trace acc size
    ++ siblings_trace trace rest (Inner [node] (sz node)).
Proof.
  intros H Hsize.
  rewrite siblings_trace_closed by exact Hsize.
  rewrite small_outer by exact H. reflexivity.
Qed.

Lemma flush_trace_nonempty acc size :
  acc <> [] -> flush_trace acc size = [Mix acc size].
Proof. destruct acc; [congruence|reflexivity]. Qed.

Lemma count_inner_open node rest acc size :
  small node -> size < MIN_CHUNK_SIZE ->
  count trace (node :: rest) (Inner acc size)
  = count trace rest (Inner (acc ++ [node]) (size + sz node)).
Proof.
  intros; unfold count; rewrite small_inner_open by assumption.
  reflexivity.
Qed.

Lemma count_inner_closed node rest acc size :
  small node -> acc <> [] -> MIN_CHUNK_SIZE <= size ->
  count trace (node :: rest) (Inner acc size)
  = S (count trace rest (Inner [node] (sz node))).
Proof.
  intros; unfold count; rewrite small_inner_closed by assumption.
  rewrite flush_trace_nonempty by assumption. reflexivity.
Qed.

Lemma count_outer node rest :
  small node ->
  count trace (node :: rest) Outer = count trace rest (Inner [node] (sz node)).
Proof.
  intros; unfold count; rewrite small_outer by assumption. reflexivity.
Qed.

Lemma app_single_nonempty (acc : list Node) (node : Node) :
  acc ++ [node] <> [].
Proof. destruct acc; discriminate. Qed.

Lemma single_nonempty (node : Node) : [node] <> [].
Proof. discriminate. Qed.

Hint Resolve app_single_nonempty single_nonempty : core.

(** A fuller accumulator never gives fewer chunks, and at most one
    more. *)
Lemma count_monotone nodes :
  Forall small nodes ->
  forall acc acc' size size',
    acc <> [] -> acc' <> [] -> 0 <= size <= size' ->
    (count trace nodes (Inner acc size) <= count trace nodes (Inner acc' size')
     <= S (count trace nodes (Inner acc size)))%nat.
Proof.
  induction 1 as [|node rest Hnode Hrest IH];
    intros acc acc' size size' Hacc Hacc' Hle.
  - unfold count; simpl. rewrite !flush_trace_nonempty by assumption.
    simpl; lia.
  - pose proof (small_decode node Hnode) as (_ & _ & _ & Hrange).
    destruct (Z.lt_ge_cases size MIN_CHUNK_SIZE) as [Ho|Hc];
      destruct (Z.lt_ge_cases size' MIN_CHUNK_SIZE) as [Ho'|Hc'];
      try lia.
    + rewrite !count_inner_open by assumption.
      apply IH; auto; lia.
    + rewrite count_inner_open by assumption.
      rewrite count_inner_closed by assumption.
      specialize (IH [node] (acc ++ [node]) (sz node) (size + sz node)).
      assert (0 <= sz node <= size + sz node) by lia.
      specialize (IH (single_nonempty node)
                     (app_single_nonempty acc node) H).
      lia.
    + rewrite !count_inner_closed by assumption. lia.
Qed.

Lemma count_inner_ge_outer nodes acc size :
  Forall small nodes -> acc <> [] -> 0 <= size ->
  (count trace nodes Outer <= count trace nodes (Inner acc size))%nat.
Proof.
  intros Hall Hacc Hsize. destruct Hall as [|node rest Hnode Hrest].
  - unfold count; simpl. lia.
  - pose proof (small_decode node Hnode) as (_ & _ & _ & Hrange).
    rewrite count_outer by assumption.
    destruct (Z.lt_ge_cases size MIN_CHUNK_SIZE) as [Ho|Hc].
    + rewrite count_inner_open by assumption.
      apply (count_monotone rest Hrest); auto; lia.
    + rewrite count_inner_closed by assumption. lia.
Qed.

(** Siblings put in front never lower the number of chunks. *)
Lemma count_prefix pre nodes :
  Forall small pre -> Forall small nodes ->
  forall st, valid st ->
    (count trace nodes Outer <= count trace (pre ++ nodes) st)%nat.
Proof.
  induction 1 as [|node rest Hnode Hrest IH]; intros Hnodes st Hst.
  - destruct st as [|acc size]; simpl app; [lia|].
    destruct Hst. apply count_inner_ge_outer; assumption.
  - pose proof (small_decode node Hnode) as (_ & _ & _ & Hrange).
    simpl app. destruct st as [|acc size].
    + rewrite count_outer by assumption.
      apply IH; [assumption|]. split; [auto|lia].
    + destruct Hst as [Hacc Hsize].
      destruct (Z.lt_ge_cases size MIN_CHUNK_SIZE) as [Ho|Hc].
      * rewrite count_inner_open by assumption.
        apply IH; [assumption|]. split; [auto|lia].
      * rewrite count_inner_closed by assumption.
        apply Nat.le_le_succ_r.
        apply IH; [assumption|]. split; [auto|lia].
Qed.

(** A group that reaches [MIN_CHUNK_SIZE] costs the loops one chunk at
    most. *)
Lemma count_group group nodes :
  Forall small group -> Forall small nodes ->
  forall st, valid st ->
    (st = Outer -> group <> []) ->
    MIN_CHUNK_SIZE <= state_size st + group_size group ->
    (S (count trace nodes Outer) <= count trace (group ++ nodes) st)%nat.
Proof.
  induction 1 as [|node rest Hnode Hrest IH];
    intros Hnodes st Hst Hne Hreach.
  - destruct st as [|acc size]; [exfalso; apply Hne; reflexivity|].
    destruct Hst as [Hacc Hsize]. simpl in Hreach. simpl app.
    unfold count. rewrite siblings_trace_closed by lia.
    rewrite flush_trace_nonempty by assumption. simpl. lia.
  - pose proof (small_decode node Hnode) as (_ & _ & _ & Hrange).
    rewrite group_size_cons in Hreach. simpl app.
    destruct st as [|acc size].
    + rewrite count_outer by assumption.
      apply IH; [assumption|split; [auto|lia]|discriminate|].
      simpl in *. lia.
    + destruct Hst as [Hacc Hsize]. simpl in Hreach.
      destruct (Z.lt_ge_cases size MIN_CHUNK_SIZE) as [Ho|Hc].
      * rewrite count_inner_open by assumption.
        apply IH; [assumption|split; [auto|lia]|discriminate|].
        simpl. lia.
      * rewrite count_inner_closed by assumption.
        apply le_n_S.
        apply count_prefix; [assumption|assumption|].
        split; [auto|lia].
Qed.

Lemma count_inner_positive nodes acc size :
  Forall small nodes -> acc <> [] -> 0 <= size ->
  (1 <= count trace nodes (Inner acc size))%nat.
Proof.
  intros Hall. revert acc size.
  induction Hall as [|node rest Hnode Hrest IH]; intros acc size Hacc Hsize.
  - unfold count; simpl. rewrite flush_trace_nonempty by assumption.
    simpl; lia.
  - pose proof (small_decode node Hnode) as (_ & _ & _ & Hrange).
    destruct (Z.lt_ge_cases size MIN_CHUNK_SIZE) as [Ho|Hc].
    + rewrite count_inner_open by assumption. apply IH; [auto|lia].
    + rewrite count_inner_closed by assumption. lia.
Qed.

(** The loops emit at least as many chunks as any grouping that meets
    the bound has groups. *)
Lemma count_most groups :
  forall nodes,
    Forall small nodes -> grouping nodes groups ->
    (List.length groups <= count trace nodes Outer)%nat.
Proof.
  induction groups as [|group later IH];
    intros nodes Hall (Hcat & Hne & Hreach).
  - simpl; lia.
  - simpl in Hcat. subst nodes.
    apply Forall_app in Hall as [Hgroup Hlater].
    inversion Hne as [|? ? Hg Hl]; subst.
    destruct later as [|next later'].
    + simpl List.concat. rewrite app_nil_r. simpl List.length.
      destruct group as [|node rest]; [congruence|].
      inversion Hgroup as [|? ? Hnode Hrest]; subst.
      pose proof (small_decode node Hnode) as (_ & _ & _ & Hrange).
      rewrite count_outer by assumption.
      apply count_inner_positive; [assumption|auto|lia].
    + destruct Hreach as [Hmin Hreach].
      change (List.length (group :: next :: later'))
        with (S (List.length (next :: later'))).
      assert (Hrec : (List.length (next :: later')
                      <= count trace (List.concat (next :: later')) Outer)%nat).
      { apply IH; [assumption|]. repeat split; assumption. }
      assert (Hstep : (S (count trace (List.concat (next :: later')) Outer)
                       <= count trace (group ++ List.concat (next :: later'))
                            Outer)%nat).
      { apply count_group; try assumption; try exact I;
          try (intros _; exact Hg). }
      lia.
Qed.

(** What the inner loop emits on short siblings: merged chunks that
    together hold the accumulator and the siblings, each but the last
    one at or above [MIN_CHUNK_SIZE]. *)
Lemma small_trace_shape nodes :
  Forall small nodes ->
  forall acc,
    acc <> [] ->
    let es := siblings_trace trace nodes (Inner acc (group_size acc)) in
    Forall merged es
    /\ List.concat (map constituents es) = acc ++ nodes
    /\ reach_min (map constituents es)
    /\ es <> [].
Proof.
  induction 1 as [|node rest Hnode Hrest IH]; intros acc Hacc es.
  - subst es. simpl. rewrite flush_trace_nonempty by assumption.
    split; [|split; [|split]].
    + constructor; [|constructor].
      exists acc. split; [assumption|reflexivity].
    + simpl. reflexivity.
    + exact I.
    + discriminate.
  - destruct (Z.lt_ge_cases (group_size acc) MIN_CHUNK_SIZE) as [Ho|Hc].
    + subst es. rewrite small_inner_open by assumption.
      rewrite <- group_size_single, <- group_size_app.
      destruct (IH (acc ++ [node]) (app_single_nonempty acc node))
        as (Hm & Hcat & Hreach & Hne).
      split; [exact Hm|split; [|split; assumption]].
      rewrite Hcat, <- app_assoc. reflexivity.
    + subst es. rewrite small_inner_closed by assumption.
      rewrite flush_trace_nonempty by assumption.
      rewrite <- group_size_single.
      destruct (IH [node] (single_nonempty node))
        as (Hm & Hcat & Hreach & Hne).
      split; [|split; [|split]].
      * constructor; [|exact Hm].
        exists acc. split; [assumption|reflexivity].
      * cbn [app map List.concat constituents].
        rewrite Hcat. reflexivity.
      * cbn [app map constituents].
        destruct (siblings_trace trace rest
                    (Inner [node] (group_size [node]))) as [|e es];
          [congruence|].
        split; [exact Hc|exact Hreach].
      * discriminate.
Qed.

End Small.

Lemma emit_types (src : str) (f : string) (es : list emission) :
  Forall (fun e => constituents e <> []) es ->
  forall chunks,
    chunk_types (fold_left (emit src f) es chunks)
    = chunk_types chunks ++ map emission_type es.
Proof.
  induction 1 as [|e es He Hes IH]; intros chunks; simpl.
  - symmetry; apply app_nil_r.
  - rewrite IH. destruct e as [acc size|node]; simpl in *.
    + destruct acc as [|first tl]; [congruence|].
      unfold chunk_types, flush, add_chunk.
      rewrite map_app, <- app_assoc. reflexivity.
    + unfold chunk_types, add_chunk.
      rewrite map_app, <- app_assoc. reflexivity.
Qed.

Lemma merged_types (es : list emission) :
  Forall merged es ->
  Forall (fun e => constituents e <> []) es
  /\ map emission_type es = repeat "mix"%string (List.length es).
Proof.
  induction 1 as [|e es (acc & Hacc & He) Hes [IH1 IH2]]; simpl.
  - split; [constructor|reflexivity].
  - subst e. simpl. split; [constructor; assumption|].
    rewrite IH2. reflexivity.
Qed.

(** C4, as the code has it.  Siblings that all decode and are shorter than
    [MIN_CHUNK_SIZE] give chunks of type ["mix"] only; the chunks split
    the siblings into consecutive groups, each but the last one of summed
    size at least [MIN_CHUNK_SIZE]; and since a chunk is closed as soon as
    it reaches [MIN_CHUNK_SIZE], no grouping under that bound has more
    groups: the number of chunks is the greatest possible, not the
    smallest. *)
Theorem small_siblings_merge_greedily
    (src : str) (f : string) (nodes : list Node) :
  all_small nodes ->
  Forall merged (emissions nodes)
  /\ chunk_types (process_nodes src f nodes [])
     = repeat "mix"%string (List.length (emissions nodes))
  /\ grouping nodes (map constituents (emissions nodes))
  /\ most_groups nodes.
Proof.
  intros Hall.
  assert (Hshape : Forall merged (emissions nodes)
                   /\ List.concat (map constituents (emissions nodes))
                      = nodes
                   /\ reach_min (map constituents (emissions nodes))).
  { destruct Hall as [|node rest Hnode Hrest].
    - repeat split; constructor.
    - unfold emissions. rewrite small_outer by assumption.
      rewrite <- group_size_single.
      destruct (small_trace_shape children_trace rest Hrest [node]
                  (single_nonempty node)) as (Hm & Hcat & Hreach & _).
      split; [exact Hm|split; [exact Hcat|exact Hreach]]. }
  destruct Hshape as (Hm & Hcat & Hreach).
  destruct (merged_types _ Hm) as [Hne Htypes].
  split; [exact Hm|split; [|split]].
  - rewrite process_nodes_emissions, emit_types by exact Hne.
    exact Htypes.
  - split; [exact Hcat|split; [|exact Hreach]].
    apply Forall_map. exact Hne.
  - intros groups Hg. apply (count_most children_trace); assumption.
Qed.

Lemma small_siblings_merge_greedily_witness :
  all_small Samples.four_nodes
  /\ chunk_types (get_chunks Samples.four_root "four.py") = ["mix"; "mix"]%string
  /\ map constituents (emissions Samples.four_nodes)
     = [firstn 2 Samples.four_nodes; skipn 2 Samples.four_nodes]
  /\ most_groups Samples.four_nodes.
Proof.
  assert (Hall : all_small Samples.four_nodes).
  { repeat constructor; exists 600; split; vm_compute; reflexivity. }
  destruct (small_siblings_merge_greedily (repeat 97%N 2400) "four.py"
              Samples.four_nodes Hall) as (_ & Htypes & _ & Hmost).
  split; [exact Hall|split; [|split; [|exact Hmost]]].
  - unfold get_chunks.
    replace (Utf8.decode (text Samples.four_root))
      with (Some (repeat 97%N 2400)) by (vm_compute; reflexivity).
    change (children Samples.four_root) with Samples.four_nodes.
    rewrite Htypes. vm_compute; reflexivity.
  - vm_compute; reflexivity.
Defined.

(** C4, as stated, fails on the count: four siblings of 600 characters
    give two chunks, while one group holding the four of them meets the
    bound as well (a final group is exempt from it). *)
Lemma small_siblings_not_fewest_chunks :
  well_formed_root Samples.four_root = true
  /\ all_small (children Samples.four_root)
  /\ List.length (get_chunks Samples.four_root "four.py") = 2%nat
  /\ grouping (children Samples.four_root) [children Samples.four_root]
  /\ ~ fewest_groups (children Samples.four_root).
Proof.
  assert (Hg : grouping (children Samples.four_root)
                 [children Samples.four_root]).
  { split; [reflexivity|split; [|exact I]].
    constructor; [discriminate|constructor]. }
  split; [vm_compute; reflexivity|].
  split; [repeat constructor; exists 600; split; vm_compute; reflexivity|].
  split; [vm_compute; reflexivity|].
  split; [exact Hg|].
  intros H. specialize (H _ Hg).
  vm_compute in H. lia.
Qed.

(** ** The loops as written and the loops by recursion *)

Lemma nth_error_skipn {A : Type} (l : list A) :
  forall i, (i < List.length l)%nat ->
    exists x, nth_error l i = Some x /\ skipn i l = x :: skipn (S i) l.
Proof.
  induction l as [|a l IH]; intros i Hi; simpl in Hi; [lia|].
  destruct i as [|i].
  - exists a. split; reflexivity.
  - destruct (IH i) as (x & Hx & Hs); [lia|].
    exists x. split; [exact Hx|exact Hs].
Qed.

Lemma skipn_past {A : Type} (l : list A) (i : nat) :
  (List.length l <= i)%nat -> skipn i l = [].
Proof. apply skipn_all2. Qed.

Lemma count_le_forest (nodes : list Node) :
  (List.length nodes <= forest_count nodes)%nat.
Proof.
  unfold forest_count.
  induction nodes as [|node rest IH]; simpl; [lia|].
  destruct node; simpl. lia.
Qed.

Lemma forest_count_child (nodes : list Node) (node : Node) :
  In node nodes ->
  (forest_count (children node) < forest_count nodes)%nat.
Proof.
  unfold forest_count.
  induction nodes as [|n rest IH]; intros Hin; [contradiction|].
  destruct Hin as [<-|Hin]; simpl.
  - destruct n; simpl. lia.
  - specialize (IH Hin). lia.
Qed.

Lemma forest_height_child (nodes : list Node) (node : Node) :
  In node nodes ->
  (forest_height (children node) < forest_height nodes)%nat.
Proof.
  intros Hin.
  assert (Hnode : node_height node = S (forest_height (children node)))
    by (destruct node; reflexivity).
  assert (Hle : (node_height node <= forest_height nodes)%nat).
  { unfold forest_height.
    pose proof (proj1 (list_max_le (map node_height nodes)
                         (list_max (map node_height nodes)))
                  (le_n _)) as Hall.
    apply (proj1 (Forall_forall _ _) Hall).
    apply in_map, Hin. }
  lia.
Qed.

Section Refinement.

Variable src : str.
Variable f : string.

(** The inner loop as written stops where the recursion on the siblings
    leaves the inner loop. *)
Lemma inner_while_spec (fuel : nat) (nodes : list Node) :
  forall i acc size,
    (List.length nodes - i <= fuel)%nat ->
    exists i' acc' size',
      Imp.inner_while fuel nodes i acc size = Imp.Ret (i', acc', size')
      /\ (i <= i')%nat
      /\ forall recurse chunks,
           process_siblings src f recurse (skipn i nodes)
             (Inner acc size) chunks
           = process_siblings src f recurse (skipn i' nodes) Outer
               (flush src f acc' chunks).
Proof.
  induction fuel as [|fuel IH]; intros i acc size Hfuel.
  - exists i, acc, size. simpl.
    assert (Hend : (i <? List.length nodes)%nat = false)
      by (apply Nat.ltb_ge; lia).
    rewrite Hend, andb_false_r.
    split; [reflexivity|split; [lia|]].
    intros recurse chunks.
    rewrite skipn_past by lia. reflexivity.
  - cbn [Imp.inner_while].
    destruct (Z.ltb_spec size MIN_CHUNK_SIZE) as [Hopen|Hclosed];
      [destruct (Nat.ltb_spec i (List.length nodes)) as [Hin|Hend]|];
      cbn [andb].
    + destruct (nth_error_skipn nodes i Hin) as (node & Hnth & Hskip).
      unfold Imp.getitem. rewrite Hnth.
      unfold Imp.try_len, Imp.decode.
      rewrite Nat.add_1_r.
      destruct (Utf8.decode (text node)) as [s|] eqn:Hdec.
      * destruct (IH (S i) (acc ++ [node]) (size + len s))
          as (i' & acc' & size' & Hrun & Hle & Hsame); [lia|].
        exists i', acc', size'.
        split; [exact Hrun|split; [lia|]].
        intros recurse chunks. rewrite Hskip.
        cbn [process_siblings]. rewrite Hdec.
        destruct (Z.ltb_spec size MIN_CHUNK_SIZE); [|lia].
        apply Hsame.
      * destruct (IH (S i) acc size)
          as (i' & acc' & size' & Hrun & Hle & Hsame); [lia|].
        exists i', acc', size'.
        split; [exact Hrun|split; [lia|]].
        intros recurse chunks. rewrite Hskip.
        cbn [process_siblings]. rewrite Hdec.
        destruct (Z.ltb_spec size MIN_CHUNK_SIZE); [|lia].
        apply Hsame.
    + exists i, acc, size.
      split; [reflexivity|split; [lia|]].
      intros recurse chunks.
      rewrite skipn_past by lia. reflexivity.
    + exists i, acc, size.
      split; [reflexivity|split; [lia|]].
      intros recurse chunks.
      apply process_siblings_closed. lia.
Qed.

Lemma create_chunk_spec (acc : list Node) (chunks : list Chunk) :
  Imp.create_chunk src f acc chunks
  = Imp.Ret (tt, flush src f acc chunks).
Proof. destruct acc; reflexivity. Qed.

(** The outer loop as written, from cursor [i] on, builds what the
    recursion builds on [nodes[i:]]. *)
Lemma outer_while_spec
    (rec : list Node -> Imp.M unit)
    (recurse : Node -> list Chunk -> list Chunk)
    (nodes : list Node) :
  (forall node, In node nodes -> forall chunks,
      rec (children node) chunks = Imp.Ret (tt, recurse node chunks)) ->
  forall fuel i chunks,
    (List.length nodes - i <= fuel)%nat ->
    Imp.outer_while src f rec fuel nodes i [] 0 chunks
    = Imp.Ret (tt, process_siblings src f recurse (skipn i nodes)
                     Outer chunks).
Proof.
  intros Hrec. induction fuel as [|fuel IH]; intros i chunks Hfuel.
  - simpl.
    assert (Hend : (i <? List.length nodes)%nat = false)
      by (apply Nat.ltb_ge; lia).
    rewrite Hend. rewrite skipn_past by lia. reflexivity.
  - cbn [Imp.outer_while].
    destruct (Nat.ltb_spec i (List.length nodes)) as [Hin|Hend].
    + destruct (nth_error_skipn nodes i Hin) as (node & Hnth & Hskip).
      rewrite Hskip. cbn [process_siblings].
      unfold Imp.bind at 1. unfold Imp.lift at 1, Imp.getitem.
      rewrite Hnth.
      unfold Imp.try_len, Imp.decode.
      rewrite Nat.add_1_r.
      destruct (Utf8.decode (text node)) as [s|] eqn:Hdec;
        [|apply IH; lia].
      destruct (0 + len s <? MIN_CHUNK_SIZE) eqn:Hsmall.
      * destruct (inner_while_spec fuel nodes (S i) ([] ++ [node])
                    (0 + len s))
          as (i' & acc' & size' & Hrun & Hle & Hsame); [lia|].
        unfold Imp.bind at 1. unfold Imp.lift at 1.
        rewrite Hrun.
        unfold Imp.bind at 1. rewrite create_chunk_spec.
        rewrite IH by lia. rewrite Hsame. reflexivity.
      * destruct ((len s >? MAX_CHUNK_SIZE)
                  && (len (children node) >? 0)).
        -- unfold Imp.bind at 1.
           rewrite Hrec by (eapply nth_error_In; exact Hnth).
           apply IH; lia.
        -- unfold Imp.bind at 1. unfold Imp.add_chunk at 1.
           apply IH; lia.
    + rewrite skipn_past by lia. reflexivity.
Qed.

(** [Imp.process_nodes] with fuel above the number of nodes of the
    forest and a recursion limit above its height returns, and leaves the
    chunks of [process_nodes]. *)
Lemma process_nodes_refines (fuel : nat) :
  forall limit nodes chunks,
    (forest_count nodes < fuel)%nat ->
    (forest_height nodes < limit)%nat ->
    Imp.process_nodes src f fuel limit nodes chunks
    = Imp.Ret (tt, process_nodes src f nodes chunks).
Proof.
  induction fuel as [|fuel IH]; intros limit nodes chunks Hfuel Hlimit;
    [lia|].
  destruct limit as [|limit]; [lia|].
  cbn [Imp.process_nodes].
  rewrite (outer_while_spec (Imp.process_nodes src f fuel limit)
             (process_children src f) nodes).
  - reflexivity.
  - intros node Hin c. rewrite process_children_unfold.
    apply IH.
    + pose proof (forest_count_child nodes node Hin). lia.
    + pose proof (forest_height_child nodes node Hin). lia.
  - pose proof (count_le_forest nodes). lia.
Qed.

End Refinement.

(** ** Coverage over ASCII sources *)

Lemma bytes_eqb_eq (a b : bytes) : bytes_eqb a b = true -> a = b.
Proof.
  revert b. induction a as [|x a IH]; intros [|y b] H; simpl in H;
    try discriminate; [reflexivity|].
  apply andb_prop in H as [Hxy Hab].
  apply Byte.byte_dec_bl in Hxy. rewrite Hxy, (IH b Hab). reflexivity.
Qed.

Lemma slice_app {A : Type} (l : list A) (a b c : nat) :
  (a <= b)%nat -> (b <= c)%nat ->
  slice l a b ++ slice l b c = slice l a c.
Proof.
  intros Hab Hbc. unfold slice.
  replace (skipn b l) with (skipn (b - a) (skipn a l))
    by (rewrite skipn_skipn; f_equal; lia).
  replace (c - a)%nat with ((b - a) + (c - b))%nat by lia.
  generalize (skipn a l) (b - a)%nat (c - b)%nat. clear.
  intros t m k. revert t.
  induction m as [|m IH]; intros t; [reflexivity|].
  destruct t as [|x t]; simpl.
  - rewrite firstn_nil. reflexivity.
  - rewrite IH. reflexivity.
Qed.

Lemma slice_empty {A : Type} (l : list A) (a : nat) : slice l a a = [].
Proof. unfold slice. rewrite Nat.sub_diag. reflexivity. Qed.

Lemma slice_map {A B : Type} (g : A -> B) (l : list A) (a b : nat) :
  map g (slice l a b) = slice (map g l) a b.
Proof. unfold slice. rewrite <- firstn_map, <- skipn_map. reflexivity. Qed.

Lemma ascii_decode (bs : bytes) :
  Utf8.ascii bs -> Utf8.decode bs = Some (map Utf8.val bs).
Proof.
  induction 1 as [|b bs Hb Hbs IH]; [reflexivity|].
  cbn [Utf8.decode map]. apply N.ltb_lt in Hb. rewrite Hb, IH.
  reflexivity.
Qed.

Lemma ascii_slice (bs : bytes) (a b : nat) :
  Utf8.ascii bs -> Utf8.ascii (slice bs a b).
Proof.
  unfold Utf8.ascii, slice. intros H.
  rewrite <- (firstn_skipn a bs) in H. apply Forall_app in H as [_ H].
  rewrite <- (firstn_skipn (b - a) (skipn a bs)) in H.
  apply Forall_app in H as [H _]. exact H.
Qed.

Lemma spans_tile_le lo hi spans : spans_tile lo hi spans -> (lo <= hi)%nat.
Proof.
  revert lo. induction spans as [|span later IH]; intros lo H; simpl in H.
  - lia.
  - destruct H as (_ & Hle & Hlater). apply IH in Hlater. lia.
Qed.

Lemma spans_tile_app lo mid hi s1 s2 :
  spans_tile lo mid s1 -> spans_tile mid hi s2 ->
  spans_tile lo hi (s1 ++ s2).
Proof.
  revert lo. induction s1 as [|span later IH]; intros lo H1 H2; simpl in *.
  - subst mid. exact H2.
  - destruct H1 as (Hfst & Hle & Hlater).
    split; [exact Hfst|split; [exact Hle|]]. apply IH; assumption.
Qed.

Lemma spans_tile_concat {A : Type} (l : list A) lo hi spans :
  spans_tile lo hi spans ->
  List.concat (map (fun span => slice l (fst span) (snd span)) spans)
  = slice l lo hi.
Proof.
  revert lo. induction spans as [|span later IH]; intros lo H; simpl in H.
  - subst hi. simpl. symmetry. apply slice_empty.
  - destruct H as (Hfst & Hle & Hlater). simpl.
    rewrite (IH _ Hlater), Hfst.
    apply slice_app; [exact Hle|]. eapply spans_tile_le; exact Hlater.
Qed.

Lemma contiguous_cons lo hi node rest :
  contiguous lo hi (node :: rest) = true ->
  start_byte node = lo /\ (lo <= end_byte node)%nat
  /\ contiguous (end_byte node) hi rest = true.
Proof.
  simpl. intros H.
  apply andb_prop in H as [H Hrest]. apply andb_prop in H as [Hs He].
  apply Nat.eqb_eq in Hs. apply Nat.leb_le in He.
  split; [exact Hs|split; [exact He|exact Hrest]].
Qed.

Lemma contiguous_le lo hi nodes :
  contiguous lo hi nodes = true -> (lo <= hi)%nat.
Proof.
  revert lo. induction nodes as [|node rest IH]; intros lo H.
  - simpl in H. apply Nat.eqb_eq in H. lia.
  - apply contiguous_cons in H as (_ & Hle & Hrest).
    apply IH in Hrest. lia.
Qed.

(** On contiguous siblings that all decode, the spans of the emissions
    follow each other from the start of the first sibling (or of the open
    accumulator) to the end of the last one. *)
Lemma siblings_trace_tiles trace nodes :
  (forall node, In node nodes -> decodable node) ->
  (forall node, In node nodes -> children node <> [] ->
     spans_tile (start_byte node) (end_byte node)
                (map emission_span (trace node))) ->
  forall lo hi,
    contiguous lo hi nodes = true ->
    spans_tile lo hi (map emission_span (siblings_trace trace nodes Outer))
    /\ forall first tl size,
         end_byte (List.last (first :: tl) first) = lo ->
         (start_byte first <= lo)%nat ->
         spans_tile (start_byte first) hi
           (map emission_span
              (siblings_trace trace nodes (Inner (first :: tl) size))).
Proof.
  induction nodes as [|node rest IH]; intros Hdec Hrec lo hi Hcont.
  - simpl in Hcont. apply Nat.eqb_eq in Hcont. subst hi.
    split; [reflexivity|].
    intros first tl size Hlast Hle.
    cbn [siblings_trace flush_trace map emission_span spans_tile fst snd].
    rewrite Hlast. repeat split. exact Hle.
  - apply contiguous_cons in Hcont as (Hstart & Hle & Hrest).
    assert (Hdec' : forall n, In n rest -> decodable n)
      by (intros n Hn; apply Hdec; right; exact Hn).
    assert (Hrec' : forall n, In n rest -> children n <> [] ->
              spans_tile (start_byte n) (end_byte n)
                         (map emission_span (trace n)))
      by (intros n Hn; apply Hrec; right; exact Hn).
    destruct (IH Hdec' Hrec' (end_byte node) hi Hrest) as [IHo IHi].
    pose proof (Hdec node (or_introl eq_refl)) as Hnode.
    unfold decodable in Hnode.
    destruct (Utf8.decode (text node)) as [s|] eqn:Hs; [|congruence].
    assert (Houter :
      spans_tile lo hi
        (map emission_span
           (if 0 + len s <? MIN_CHUNK_SIZE
            then siblings_trace trace rest
                   (Inner ([] ++ [node]) (0 + len s))
            else if (len s >? MAX_CHUNK_SIZE) && (len (children node) >? 0)
            then trace node ++ siblings_trace trace rest Outer
            else Standalone node :: siblings_trace trace rest Outer))).
    { destruct (0 + len s <? MIN_CHUNK_SIZE).
      - rewrite <- Hstart. apply IHi; [reflexivity|lia].
      - destruct ((len s >? MAX_CHUNK_SIZE)
                  && (len (children node) >? 0)) eqn:Hsplit.
        + rewrite map_app.
          apply spans_tile_app with (mid := end_byte node); [|exact IHo].
          rewrite <- Hstart. apply Hrec; [left; reflexivity|].
          apply andb_prop in Hsplit as [_ Hkids].
          destruct (children node); [discriminate|discriminate].
        + cbn [map emission_span spans_tile fst snd].
          split; [exact Hstart|split; [exact Hle|exact IHo]]. }
    split.
    + cbn [siblings_trace]. rewrite Hs. exact Houter.
    + intros first tl size Hlast Hfirst.
      cbn [siblings_trace]. rewrite Hs.
      destruct (size <? MIN_CHUNK_SIZE).
      * change ((first :: tl) ++ [node]) with (first :: (tl ++ [node])).
        apply IHi; [|lia].
        change (first :: tl ++ [node]) with ((first :: tl) ++ [node]).
        rewrite last_last. reflexivity.
      * rewrite map_app.
        apply spans_tile_app with (mid := lo); [|exact Houter].
        cbn [flush_trace map emission_span spans_tile fst snd].
        rewrite Hlast. repeat split. exact Hfirst.
Qed.

Section Ascii.

Variable src : bytes.
Hypothesis src_ascii : Utf8.ascii src.

Lemma tiled_parts (node : Node) :
  tiled src node = true ->
  (start_byte node <= end_byte node)%nat
  /\ text node = slice src (start_byte node) (end_byte node)
  /\ (children node <> [] ->
      contiguous (start_byte node) (end_byte node) (children node) = true)
  /\ forallb (tiled src) (children node) = true.
Proof.
  destruct node as [sb eb sp ep ty tx kids]. cbn [tiled start_byte end_byte
    text children].
  intros H.
  apply andb_prop in H as [H Hall]. apply andb_prop in H as [H Hkids].
  apply andb_prop in H as [H Htext]. apply andb_prop in H as [Hse _].
  apply Nat.leb_le in Hse. apply bytes_eqb_eq in Htext.
  split; [exact Hse|split; [exact Htext|split; [|exact Hall]]].
  intros Hne. destruct kids; [congruence|exact Hkids].
Qed.

Lemma tiled_decode (node : Node) :
  tiled src node = true ->
  Utf8.decode (text node)
  = Some (slice (map Utf8.val src) (start_byte node) (end_byte node)).
Proof.
  intros H. apply tiled_parts in H as (_ & Htext & _).
  rewrite Htext, ascii_decode by (apply ascii_slice; exact src_ascii).
  rewrite slice_map. reflexivity.
Qed.

Lemma tiled_decodable (nodes : list Node) :
  forallb (tiled src) nodes = true ->
  forall node, In node nodes -> decodable node.
Proof.
  intros Hall node Hin.
  pose proof (proj1 (forallb_forall _ _) Hall node Hin) as Hnode.
  unfold decodable. rewrite (tiled_decode node Hnode). discriminate.
Qed.

Lemma children_trace_tiles (node : Node) :
  tiled src node = true -> children node <> [] ->
  spans_tile (start_byte node) (end_byte node)
             (map emission_span (children_trace node)).
Proof.
  induction node as [node IH] using Node_induction. intros Htiled Hne.
  apply tiled_parts in Htiled as (_ & _ & Hcont & Hall).
  rewrite children_trace_unfold.
  apply siblings_trace_tiles.
  - apply tiled_decodable, Hall.
  - intros n Hn. apply (proj1 (Forall_forall _ _) IH n Hn).
    exact (proj1 (forallb_forall _ _) Hall n Hn).
  - apply Hcont, Hne.
Qed.

Lemma emissions_tile (nodes : list Node) (lo hi : nat) :
  contiguous lo hi nodes = true ->
  forallb (tiled src) nodes = true ->
  spans_tile lo hi (map emission_span (emissions nodes)).
Proof.
  intros Hcont Hall.
  apply siblings_trace_tiles.
  - apply tiled_decodable, Hall.
  - intros n Hn. apply children_trace_tiles.
    exact (proj1 (forallb_forall _ _) Hall n Hn).
  - exact Hcont.
Qed.

Lemma texts_tiled (nodes : list Node) :
  forall lo hi,
    contiguous lo hi nodes = true ->
    forallb (tiled src) nodes = true ->
    texts nodes = Some (slice (map Utf8.val src) lo hi).
Proof.
  induction nodes as [|node rest IH]; intros lo hi Hcont Hall.
  - simpl in Hcont. apply Nat.eqb_eq in Hcont. subst hi.
    rewrite slice_empty. reflexivity.
  - apply contiguous_cons in Hcont as (Hstart & Hle & Hrest).
    simpl in Hall. apply andb_prop in Hall as [Hnode Hall].
    cbn [texts]. rewrite (tiled_decode node Hnode).
    rewrite (IH _ _ Hrest Hall), Hstart.
    rewrite slice_app; [reflexivity|exact Hle|].
    eapply contiguous_le; exact Hrest.
Qed.

End Ascii.

Lemma emit_contents (source_code : str) (f : string) (es : list emission) :
  forall chunks,
    List.concat (map content (fold_left (emit source_code f) es chunks))
    = List.concat (map content chunks)
      ++ List.concat (map (emission_content source_code) es).
Proof.
  induction es as [|e es IH]; intros chunks; simpl.
  - symmetry; apply app_nil_r.
  - rewrite IH, app_assoc. f_equal.
    destruct e as [[|first tl] size|node];
      unfold emission_content; cbn [emit flush emission_span fst snd].
    + rewrite slice_empty, app_nil_r. reflexivity.
    + unfold add_chunk. rewrite map_app, concat_app. simpl.
      rewrite app_nil_r. reflexivity.
    + unfold add_chunk. rewrite map_app, concat_app. simpl.
      rewrite app_nil_r. reflexivity.
Qed.

(** Coverage where bytes and characters agree.  When the source is
    ASCII and the siblings and the children of every node follow each
    other without a gap, the chunk contents read one after the other are
    the siblings' texts read one after the other. *)
Theorem ascii_source_is_covered
    (src : bytes) (f : string) (nodes : list Node) (lo hi : nat) :
  Utf8.ascii src ->
  contiguous lo hi nodes = true ->
  forallb (tiled src) nodes = true ->
  covers nodes (process_nodes (map Utf8.val src) f nodes [])
  /\ List.concat
       (map content (process_nodes (map Utf8.val src) f nodes []))
     = slice (map Utf8.val src) lo hi.
Proof.
  intros Hascii Hcont Hall.
  assert (Hchunks :
    List.concat (map content (process_nodes (map Utf8.val src) f nodes []))
    = slice (map Utf8.val src) lo hi).
  { rewrite process_nodes_emissions, emit_contents. simpl.
    unfold emission_content.
    rewrite <- (spans_tile_concat (map Utf8.val src) lo hi
                  (map emission_span (emissions nodes))).
    - rewrite map_map. reflexivity.
    - apply emissions_tile with (src := src); assumption. }
  split; [|exact Hchunks].
  unfold covers. rewrite Hchunks.
  apply texts_tiled; assumption.
Qed.

Lemma ascii_source_is_covered_witness :
  covers (children Samples.mid_root)
    (process_nodes (map Utf8.val Samples.mid_src) "mid.py"
       (children Samples.mid_root) [])
  /\ List.concat
       (map content
          (process_nodes (map Utf8.val Samples.mid_src) "mid.py"
             (children Samples.mid_root) []))
     = slice (map Utf8.val Samples.mid_src) 0 4400.
Proof.
  apply (ascii_source_is_covered Samples.mid_src "mid.py"
           (children Samples.mid_root) 0 4400).
  - apply Forall_forall. intros b Hb.
    apply repeat_spec in Hb. subst b. reflexivity.
  - vm_compute; reflexivity.
  - vm_compute; reflexivity.
Defined.

(** ** Coverage and multi-byte text *)

(** C2 at a source with a two-byte character.  The source is e-acute
    followed by [abc] and the only child of the root is [abc], bytes 2 to
    5.  [add_chunk] slices the decoded source, which has four characters,
    by these byte offsets: the chunk holds [bc] where the text of the node
    is [abc]. *)
Theorem multibyte_source_shifts_content :
  well_formed_root Samples.accent_root = true
  /\ Utf8.decode (text Samples.accent_root) = Some [233; 97; 98; 99]%N
  /\ texts (children Samples.accent_root) = Some [97; 98; 99]%N
  /\ map content (get_chunks Samples.accent_root "accent.py")
     = [[98; 99]%N]
  /\ ~ covers (children Samples.accent_root)
         (get_chunks Samples.accent_root "accent.py").
Proof.
  split; [reflexivity|].
  split; [reflexivity|].
  split; [reflexivity|].
  split; [reflexivity|].
  unfold covers. vm_compute. discriminate.
Qed.

(** The same slip one level down, in a tree whose sibling lists all cover
    their parent: 1024 e-acutes come first, so the two children of the
    oversized node, 1050 characters each, are cut out 1024 characters too
    far to the right and give chunks of 1050 and 26 characters. *)
Lemma multibyte_prefix_shifts_nested_chunks :
  well_formed_root Samples.nested_root = true
  /\ tiled Samples.nested_src Samples.nested_root = true
  /\ map (fun c => (List.length (content c), chunk_type (metadata c)))
         (get_chunks Samples.nested_root "nested.py")
     = [(2048, "comment"); (1050, "function_definition");
        (26, "function_definition")]%nat%string
  /\ option_map (@List.length N) (texts [Samples.nested_a]) = Some 1024%nat
  /\ option_map (@List.length N) (texts (children Samples.nested_big))
     = Some 2100%nat.
Proof. repeat split; vm_compute; reflexivity. Qed.

(** ** The one exception that leaves [get_chunks] *)

Lemma inner_while_no_raise (fuel : nat) (nodes : list Node) :
  forall i acc size e,
    Imp.inner_while fuel nodes i acc size <> Imp.Raise e.
Proof.
  induction fuel as [|fuel IH]; intros i acc size e;
    cbn [Imp.inner_while];
    destruct ((size <? MIN_CHUNK_SIZE) && (i <? List.length nodes)%nat)
      eqn:Hcond; try discriminate.
  apply andb_prop in Hcond as [_ Hin]. apply Nat.ltb_lt in Hin.
  destruct (nth_error_skipn nodes i Hin) as (node & Hnth & _).
  unfold Imp.getitem. rewrite Hnth.
  unfold Imp.try_len. destruct (Imp.decode (text node)); apply IH.
Qed.

Section OnlyRecursionError.

Variable src : str.
Variable f : string.

(** The loops raise nothing of their own: what they raise, the recursive
    call raised. *)
Lemma outer_while_only_recursion (rec : list Node -> Imp.M unit)
    (nodes : list Node) :
  (forall l chunks e,
      rec l chunks = Imp.Raise e -> e = Imp.RecursionError) ->
  forall fuel i acc size chunks e,
    Imp.outer_while src f rec fuel nodes i acc size chunks = Imp.Raise e ->
    e = Imp.RecursionError.
Proof.
  intros Hrec. induction fuel as [|fuel IH]; intros i acc size chunks e;
    cbn [Imp.outer_while];
    destruct (Nat.ltb_spec i (List.length nodes)) as [Hin|Hend];
    try discriminate.
  destruct (nth_error_skipn nodes i Hin) as (node & Hnth & _).
  unfold Imp.bind at 1. unfold Imp.lift at 1, Imp.getitem. rewrite Hnth.
  unfold Imp.try_len.
  destruct (Imp.decode (text node)) as [s| |]; try apply IH.
  destruct (size + len s <? MIN_CHUNK_SIZE).
  - unfold Imp.bind at 1. unfold Imp.lift at 1.
    pose proof (inner_while_no_raise fuel nodes (i + 1) (acc ++ [node])
                  (size + len s)) as Hinner.
    destruct (Imp.inner_while fuel nodes (i + 1) (acc ++ [node])
                (size + len s)) as [[[i' acc'] size']|e'|];
      [|exfalso; apply (Hinner e'); reflexivity|discriminate].
    unfold Imp.bind at 1. rewrite create_chunk_spec. apply IH.
  - destruct ((len s >? MAX_CHUNK_SIZE) && (len (children node) >? 0)).
    + unfold Imp.bind at 1.
      pose proof (Hrec (children node) chunks) as Hkids.
      destruct (rec (children node) chunks) as [[[] chunks']|e'|];
        [apply IH| |discriminate].
      intros H. injection H as <-. apply Hkids. reflexivity.
    + unfold Imp.bind at 1. unfold Imp.add_chunk at 1. apply IH.
Qed.

Lemma process_nodes_only_recursion (fuel : nat) :
  forall limit nodes chunks e,
    Imp.process_nodes src f fuel limit nodes chunks = Imp.Raise e ->
    e = Imp.RecursionError.
Proof.
  induction fuel as [|fuel IH]; intros limit nodes chunks e;
    destruct limit as [|limit]; cbn [Imp.process_nodes];
    try discriminate;
    try (intros H; injection H as <-; reflexivity).
  apply outer_while_only_recursion. apply IH.
Qed.

End OnlyRecursionError.

Lemma imp_get_chunks_returns (root_node : Node) (fname : string)
    (limit extra : nat) :
  (forest_height (children root_node) < limit)%nat ->
  Imp.get_chunks (S (forest_count (children root_node)) + extra) limit
                 root_node fname
  = Imp.Ret (get_chunks root_node fname).
Proof.
  intros Hlimit. unfold Imp.get_chunks, get_chunks, Imp.decode.
  destruct (Utf8.decode (text root_node)) as [source_code|];
    [|reflexivity].
  rewrite process_nodes_refines by (exact Hlimit || lia). reflexivity.
Qed.

Lemma imp_get_chunks_only_recursion (fuel limit : nat) (root_node : Node)
    (fname : string) (e : Imp.exn) :
  Imp.get_chunks fuel limit root_node fname = Imp.Raise e ->
  e = Imp.RecursionError.
Proof.
  unfold Imp.get_chunks.
  destruct (Imp.decode (text root_node)) as [source_code| |];
    try discriminate.
  pose proof (process_nodes_only_recursion source_code fname fuel limit
                (children root_node) []) as Hrun.
  destruct (Imp.process_nodes source_code fname fuel limit
              (children root_node) []) as [[[] chunks]|e'|];
    try discriminate.
  intros H. injection H as <-. apply Hrun. reflexivity.
Qed.

(** ** Trees deeper than the recursion limit *)

Lemma slice_length {A : Type} (l : list A) (a b : nat) :
  (b <= List.length l)%nat -> List.length (slice l a b) = (b - a)%nat.
Proof.
  intros H. unfold slice. rewrite firstn_length_le; [reflexivity|].
  rewrite length_skipn. lia.
Qed.

Lemma deep_source_ascii (k : nat) : Utf8.ascii (Deep.source k).
Proof.
  unfold Deep.source, Utf8.ascii.
  apply Forall_app. split; [|apply Forall_app; split].
  - apply Forall_forall. intros b Hb.
    apply repeat_spec in Hb. subst b. reflexivity.
  - induction k as [|k IH]; simpl; [constructor|].
    constructor; [reflexivity|constructor; [reflexivity|exact IH]].
  - constructor; [reflexivity|constructor].
Qed.

Lemma deep_source_length (k : nat) :
  List.length (Deep.source k) = (2101 + 2 * k)%nat.
Proof.
  unfold Deep.source, Samples.letters.
  rewrite !length_app, repeat_length.
  assert (H : List.length (List.concat (repeat Deep.term k))
              = (2 * k)%nat).
  { induction k as [|k IH]; simpl in *; [reflexivity|]. rewrite IH. lia. }
  rewrite H. simpl. lia.
Qed.

(** Every link of the chain is oversized. *)
Lemma deep_chain_size (src : bytes) (k : nat) :
  Utf8.ascii src -> (2100 + 2 * k <= List.length src)%nat ->
  exists s, Utf8.decode (text (Deep.chain src k)) = Some s
            /\ len s = Z.of_nat (2100 + 2 * k).
Proof.
  intros Hascii Hlen.
  assert (Htext : text (Deep.chain src k) = slice src 0 (2100 + 2 * k)).
  { destruct k as [|k]; cbn [Deep.chain node_at text].
    - reflexivity.
    - f_equal. lia. }
  rewrite Htext, ascii_decode by (apply ascii_slice, Hascii).
  eexists. split; [reflexivity|].
  unfold len. rewrite length_map, slice_length by exact Hlen.
  f_equal; lia.
Qed.

(** A chain of [k] oversized nodes, each the first child of the one
    above, needs [k] nested calls and one more: with a limit of [k] or less
    the call on line 98 raises [RecursionError], before any chunk of the
    chain is built. *)
Lemma deep_chain_raises (source_code : str) (f : string) (src : bytes) :
  Utf8.ascii src ->
  forall limit k fuel rest chunks,
    (2100 + 2 * k <= List.length src)%nat ->
    (limit <= k)%nat -> (limit < fuel)%nat ->
    Imp.process_nodes source_code f fuel limit
      (Deep.chain src k :: rest) chunks
    = Imp.Raise Imp.RecursionError.
Proof.
  intros Hascii.
  induction limit as [|limit IH]; intros k fuel rest chunks Hlen Hk Hfuel.
  - destruct fuel; reflexivity.
  - destruct k as [|k]; [lia|].
    destruct fuel as [|fuel]; [lia|].
    cbn [Imp.process_nodes].
    assert (Hrec : forall rest' chunks',
              Imp.process_nodes source_code f fuel limit
                (Deep.chain src k :: rest') chunks'
              = Imp.Raise Imp.RecursionError)
      by (intros; apply IH; lia).
    set (rec := Imp.process_nodes source_code f fuel limit) in *.
    clearbody rec.
    destruct fuel as [|fuel]; [lia|].
    destruct (deep_chain_size src (S k) Hascii Hlen) as (s & Hdec & Hsize).
    assert (Hmin : (0 + len s <? MIN_CHUNK_SIZE) = false)
      by (apply Z.ltb_ge; unfold MIN_CHUNK_SIZE; lia).
    assert (Hmax : (len s >? MAX_CHUNK_SIZE) = true)
      by (apply Z.gtb_lt; unfold MAX_CHUNK_SIZE; lia).
    assert (Hkids : (len (children (Deep.chain src (S k))) >? 0) = true)
      by reflexivity.
    cbn [Imp.outer_while List.length Nat.ltb Nat.leb].
    unfold Imp.bind at 1. unfold Imp.lift at 1. cbn [Imp.getitem nth_error].
    unfold Imp.try_len, Imp.decode. rewrite Hdec, Hmin, Hmax, Hkids.
    cbn [andb]. unfold Imp.bind at 1.
    cbn [Deep.chain node_at children]. rewrite Hrec. reflexivity.
Qed.

(** ** Termination and exceptions *)

(** C9, as the code has it.  [get_chunks] as it is written, with its
    cursor, its list indexing and its two exception handlers, raises no
    [UnicodeDecodeError] and no [IndexError] on any tree, well formed or
    not: a decode failure of a node or of the root degrades as the
    decode-failure rules say.  It returns, with the chunk list of
    [get_chunks], whenever the recursion limit admits more nested calls
    than the tree below the root is high.  The one exception that can leave
    it is the [RecursionError] of the recursive call on line 98, which
    nothing catches. *)
Theorem get_chunks_returns_within_limit
    (root_node : Node) (fname : string) :
  (forall limit extra,
      (forest_height (children root_node) < limit)%nat ->
      Imp.get_chunks (S (forest_count (children root_node)) + extra) limit
                     root_node fname
      = Imp.Ret (get_chunks root_node fname))
  /\ (forall fuel limit e,
        Imp.get_chunks fuel limit root_node fname = Imp.Raise e ->
        e = Imp.RecursionError).
Proof.
  split.
  - intros limit extra Hlimit.
    unfold Imp.get_chunks, get_chunks, Imp.decode.
    destruct (Utf8.decode (text root_node)) as [source_code|];
      [|reflexivity].
    rewrite process_nodes_refines by (exact Hlimit || lia). reflexivity.
  - intros fuel limit e. unfold Imp.get_chunks.
    destruct (Imp.decode (text root_node)) as [source_code| |];
      try discriminate.
    pose proof (process_nodes_only_recursion source_code fname fuel limit
                  (children root_node) []) as Hrun.
    destruct (Imp.process_nodes source_code fname fuel limit
                (children root_node) []) as [[[] chunks]|e'|];
      try discriminate.
    intros H. injection H as <-. apply Hrun. reflexivity.
Qed.

Lemma get_chunks_returns_within_limit_witness :
  Imp.get_chunks 6 3 Samples.mid_root "mid.py"
  = Imp.Ret (get_chunks Samples.mid_root "mid.py")
  /\ forall fuel limit e,
       Imp.get_chunks fuel limit Samples.mid_root "mid.py" = Imp.Raise e ->
       e = Imp.RecursionError.
Proof.
  destruct (get_chunks_returns_within_limit Samples.mid_root "mid.py")
    as [Hret Honly].
  split; [|exact Honly].
  apply (Hret 3%nat 0%nat). vm_compute. lia.
Defined.

(** C9, as stated, fails on a deep tree.  The root holds a left-nested
    chain of 1000 binary operators over a long identifier, as a parser
    gives for [x+a+a+...+a]; the tree is well formed; every node of the
    chain is longer than [MAX_CHUNK_SIZE] and is the first child of its
    parent, so each is split by a call nested in the call that split its
    parent.  With a recursion limit of 1000, all of it free, or any limit
    below, [get_chunks] raises [RecursionError]. *)
Lemma get_chunks_deep_tree_raises :
  well_formed_root (Deep.root 1000) = true
  /\ forall fuel limit,
       (limit <= 1000)%nat -> (limit < fuel)%nat ->
       Imp.get_chunks fuel limit (Deep.root 1000) "deep.py"
       = Imp.Raise Imp.RecursionError.
Proof.
  split; [vm_compute; reflexivity|].
  intros fuel limit Hlimit Hfuel.
  pose proof (deep_source_ascii 1000) as Hascii.
  pose proof (deep_source_length 1000) as Hlen.
  unfold Imp.get_chunks, Imp.decode.
  assert (Htext : text (Deep.root 1000) = Deep.source 1000).
  { unfold Deep.root, node_at, slice; cbn [text].
    rewrite Nat.sub_0_r. simpl skipn.
    rewrite <- Hlen. apply firstn_all. }
  rewrite Htext, (ascii_decode _ Hascii).
  change (children (Deep.root 1000))
    with [Deep.chain (Deep.source 1000) 1000].
  rewrite (deep_chain_raises _ "deep.py" (Deep.source 1000) Hascii)
    by (rewrite ?Hlen; lia).
  reflexivity.
Qed.

(** * Further properties *)

(** ** Appending to a list that already holds chunks *)

Lemma shift_id_0 (c : Chunk) : shift_id 0 c = c.
Proof. destruct c as [text [n ty sp ep fn]]. reflexivity. Qed.

Lemma shift_id_add (k m : nat) (c : Chunk) :
  shift_id k (shift_id m c) = shift_id (k + m) c.
Proof.
  destruct c as [text [n ty sp ep fn]]. unfold shift_id. simpl.
  do 2 f_equal. lia.
Qed.

Lemma emit_one_shift (src : str) (f : string) (e : emission)
    (chunks : list Chunk) :
  emit src f chunks e
  = chunks ++ map (shift_id (List.length chunks)) (emit src f [] e).
Proof.
  destruct e as [[|first tl] size|node]; cbn [emit flush].
  - simpl. symmetry. apply app_nil_r.
  - unfold add_chunk, shift_id. simpl. rewrite Nat.add_0_r. reflexivity.
  - unfold add_chunk, shift_id. simpl. rewrite Nat.add_0_r. reflexivity.
Qed.

Lemma emit_shift (src : str) (f : string) (es : list emission) :
  forall chunks,
    fold_left (emit src f) es chunks
    = chunks ++ map (shift_id (List.length chunks))
                    (fold_left (emit src f) es []).
Proof.
  induction es as [|e es IH]; intros chunks.
  - simpl. symmetry. apply app_nil_r.
  - cbn [fold_left]. rewrite (IH (emit src f chunks e)).
    rewrite (IH (emit src f [] e)).
    rewrite (emit_one_shift src f e chunks) at 1 2.
    rewrite map_app, map_map, <- app_assoc, length_app, length_map.
    do 2 f_equal. apply map_ext. intros c.
    symmetry. apply shift_id_add.
Qed.

(** X1. [process_nodes] only appends: the chunks already in the list stay
    as they are, and what is appended is what the same siblings give on an
    empty list, with the ids raised by the number of chunks that were
    there. *)
Theorem process_nodes_appends
    (src : str) (f : string) (nodes : list Node) (chunks : list Chunk) :
  process_nodes src f nodes chunks
  = chunks ++ map (shift_id (List.length chunks))
                  (process_nodes src f nodes []).
Proof. rewrite !process_nodes_emissions. apply emit_shift. Qed.

(** ** What holds of every emission *)

Section EveryEmission.

Variable R : emission -> Prop.
Variable Inv : list Node -> Z -> Prop.
Variable ok : Node -> Prop.
Variable trace : Node -> list emission.

Hypothesis Inv_first : forall node s,
  ok node -> Utf8.decode (text node) = Some s ->
  len s < MIN_CHUNK_SIZE -> Inv [node] (0 + len s).
Hypothesis Inv_next : forall acc size node s,
  ok node -> Inv acc size -> size < MIN_CHUNK_SIZE ->
  Utf8.decode (text node) = Some s ->
  Inv (acc ++ [node]) (size + len s).
Hypothesis R_flush : forall acc size,
  Inv acc size -> Forall R (flush_trace acc size).
Hypothesis R_standalone : forall node s,
  ok node -> Utf8.decode (text node) = Some s ->
  MIN_CHUNK_SIZE <= len s ->
  len s <= MAX_CHUNK_SIZE \/ children node = [] ->
  R (Standalone node).

(** A property of emissions that the merge branch keeps, the flush
    establishes, the standalone branch establishes and the recursive call
    brings back holds of everything the loops emit. *)
Lemma siblings_trace_forall (nodes : list Node) :
  (forall node, In node nodes -> ok node) ->
  (forall node, In node nodes -> Forall R (trace node)) ->
  forall st,
    match st with
    | Outer => True
    | Inner acc size => Inv acc size
    end ->
    Forall R (siblings_trace trace nodes st).
Proof.
  induction nodes as [|node rest IH]; intros Hok Hrec st Hst.
  - destruct st as [|acc size]; [constructor|apply R_flush, Hst].
  - assert (Hok' : forall n, In n rest -> ok n)
      by (intros n Hn; apply Hok; right; exact Hn).
    assert (Hrec' : forall n, In n rest -> Forall R (trace n))
      by (intros n Hn; apply Hrec; right; exact Hn).
    specialize (IH Hok' Hrec').
    pose proof (Hok node (or_introl eq_refl)) as Hnode.
    pose proof (Hrec node (or_introl eq_refl)) as Hsplit.
    cbn [siblings_trace].
    destruct (Utf8.decode (text node)) as [s|] eqn:Hdec.
    + assert (Houter : Forall R
                (if 0 + len s <? MIN_CHUNK_SIZE
                 then siblings_trace trace rest
                        (Inner ([] ++ [node]) (0 + len s))
                 else if (len s >? MAX_CHUNK_SIZE)
                         && (len (children node) >? 0)
                 then trace node ++ siblings_trace trace rest Outer
                 else Standalone node :: siblings_trace trace rest Outer)).
      { destruct (Z.ltb_spec (0 + len s) MIN_CHUNK_SIZE) as [Hsmall|Hbig].
        - apply IH. apply Inv_first; [exact Hnode|exact Hdec|lia].
        - destruct ((len s >? MAX_CHUNK_SIZE)
                    && (len (children node) >? 0)) eqn:Hcond.
          + apply Forall_app. split; [exact Hsplit|apply IH; exact I].
          + constructor; [|apply IH; exact I].
            apply (R_standalone node s Hnode Hdec); [lia|].
            apply andb_false_iff in Hcond as [Hmax|Hkids].
            * left. rewrite Z.gtb_ltb in Hmax. apply Z.ltb_ge in Hmax.
              exact Hmax.
            * right. rewrite Z.gtb_ltb in Hkids. apply Z.ltb_ge in Hkids.
              destruct (children node); [reflexivity|].
              unfold len in Hkids. simpl in Hkids. lia. }
      destruct st as [|acc size]; [exact Houter|].
      destruct (Z.ltb_spec size MIN_CHUNK_SIZE) as [Hopen|Hclosed].
      * apply IH. apply Inv_next; assumption.
      * apply Forall_app. split; [apply R_flush, Hst|exact Houter].
    + destruct st as [|acc size]; [apply IH; exact I|].
      destruct (size <? MIN_CHUNK_SIZE); [apply IH; exact Hst|].
      apply Forall_app. split; [apply R_flush, Hst|apply IH; exact I].
Qed.

End EveryEmission.

(** ** Sizes of the nodes a chunk is built from *)

Lemma node_size_of_decode (node : Node) (s : str) :
  Utf8.decode (text node) = Some s ->
  node_size node = Some (len s) /\ sz node = len s.
Proof. intros H. unfold sz, node_size. rewrite H. split; reflexivity. Qed.

Lemma siblings_trace_well_built trace (nodes : list Node) :
  (forall node, In node nodes -> Forall well_built (trace node)) ->
  forall st,
    match st with
    | Outer => True
    | Inner acc size => well_built (Mix acc size)
    end ->
    Forall well_built (siblings_trace trace nodes st).
Proof.
  intros Hrec.
  apply (siblings_trace_forall well_built
           (fun acc size => well_built (Mix acc size)) (fun _ => True)).
  - intros node s _ Hdec Hsmall.
    destruct (node_size_of_decode node s Hdec) as [_ Hsz].
    cbn [well_built]. split; [|split].
    + exists node, []. split; [reflexivity|lia].
    + rewrite group_size_single. lia.
    + simpl. unfold MIN_CHUNK_SIZE. lia.
  - intros acc size node s _ ((first & tl & Hacc & Hfirst) & Hsize & _)
           Hopen Hdec.
    destruct (node_size_of_decode node s Hdec) as [_ Hsz].
    cbn [well_built]. split; [|split].
    + exists first, (tl ++ [node]). subst acc. split; [reflexivity|exact Hfirst].
    + rewrite group_size_app, group_size_single. lia.
    + rewrite removelast_last. lia.
  - intros acc size Hinv. destruct acc as [|first tl]; [constructor|].
    constructor; [exact Hinv|constructor].
  - intros node s _ Hdec Hmin Hmax.
    destruct (node_size_of_decode node s Hdec) as [Hsize _].
    exists (len s). split; [exact Hsize|split; [exact Hmin|exact Hmax]].
  - intros node _. exact I.
  - exact Hrec.
Qed.

Lemma emissions_well_built (nodes : list Node) :
  Forall well_built (emissions nodes).
Proof.
  assert (Hkids : forall node, Forall well_built (children_trace node)).
  { induction node as [node IH] using Node_induction.
    rewrite children_trace_unfold.
    apply siblings_trace_well_built; [|exact I].
    intros n Hn. exact (proj1 (Forall_forall _ _) IH n Hn). }
  apply siblings_trace_well_built; [|exact I].
  intros node _. apply Hkids.
Qed.

(** X2. A node emitted as a chunk of its own decodes to at least
    [MIN_CHUNK_SIZE] characters, at any depth; and it is longer than
    [MAX_CHUNK_SIZE] only if it has no children. *)
Theorem standalone_chunk_bounds (nodes : list Node) (node : Node) :
  In (Standalone node) (emissions nodes) ->
  exists size, node_size node = Some size
               /\ MIN_CHUNK_SIZE <= size
               /\ (size <= MAX_CHUNK_SIZE \/ children node = []).
Proof.
  intros Hin.
  exact (proj1 (Forall_forall _ _) (emissions_well_built nodes) _ Hin).
Qed.

(** X3. A merged chunk, at any depth, holds at least one node and starts
    with a node shorter than [MIN_CHUNK_SIZE]; the size it records is the
    summed size of its nodes; and it is closed as soon as it reaches
    [MIN_CHUNK_SIZE]: without its last node it is below it, so it is
    smaller than [MIN_CHUNK_SIZE] plus the size of its last node.  No bound
    by [MAX_CHUNK_SIZE] follows. *)
Theorem mix_chunk_bounds (nodes acc : list Node) (size : Z) :
  In (Mix acc size) (emissions nodes) ->
  (exists first tl, acc = first :: tl /\ sz first < MIN_CHUNK_SIZE)
  /\ size = group_size acc
  /\ group_size (removelast acc) < MIN_CHUNK_SIZE
  /\ forall default, size < MIN_CHUNK_SIZE + sz (List.last acc default).
Proof.
  intros Hin.
  pose proof (proj1 (Forall_forall _ _) (emissions_well_built nodes) _ Hin)
    as (Hfirst & Hsize & Hopen).
  split; [exact Hfirst|split; [exact Hsize|split; [exact Hopen|]]].
  intros last.
  destruct Hfirst as (first & tl & Hacc & _).
  assert (Hne : acc <> []) by (subst acc; discriminate).
  rewrite Hsize.
  rewrite (app_removelast_last last Hne) at 1.
  rewrite group_size_app, group_size_single. lia.
Qed.

Lemma standalone_chunk_bounds_witness :
  exists size, node_size Samples.mid_leaf = Some size
               /\ MIN_CHUNK_SIZE <= size
               /\ (size <= MAX_CHUNK_SIZE \/ children Samples.mid_leaf = []).
Proof.
  apply (standalone_chunk_bounds (children Samples.mid_leaf_root)).
  replace (emissions (children Samples.mid_leaf_root))
    with [Standalone Samples.mid_first; Standalone Samples.mid_leaf;
          Mix [Samples.mid_last] 300]
    by (vm_compute; reflexivity).
  right; left; reflexivity.
Defined.

Lemma mix_chunk_bounds_witness :
  (exists first tl, firstn 2 Samples.four_nodes = first :: tl
                    /\ sz first < MIN_CHUNK_SIZE)
  /\ 1200 = group_size (firstn 2 Samples.four_nodes)
  /\ group_size (removelast (firstn 2 Samples.four_nodes)) < MIN_CHUNK_SIZE
  /\ forall default,
       1200 < MIN_CHUNK_SIZE
              + sz (List.last (firstn 2 Samples.four_nodes) default).
Proof.
  apply (mix_chunk_bounds Samples.four_nodes).
  replace (emissions Samples.four_nodes)
    with [Mix (firstn 2 Samples.four_nodes) 1200;
          Mix (skipn 2 Samples.four_nodes) 1200]
    by (vm_compute; reflexivity).
  left; reflexivity.
Defined.

(** ** Where the fields of a chunk come from *)

Lemma subtree_unfold (node : Node) :
  subtree node = node :: forest_nodes (children node).
Proof. destruct node; reflexivity. Qed.

Lemma forest_nodes_self (nodes : list Node) (node : Node) :
  In node nodes -> incl (subtree node) (forest_nodes nodes).
Proof.
  intros Hin n Hn. apply in_flat_map. exists node. split; assumption.
Qed.

Lemma last_in {A : Type} (first : A) (tl : list A) :
  In (List.last (first :: tl) first) (first :: tl).
Proof.
  generalize first at 2. revert first.
  induction tl as [|x tl IH]; intros first default.
  - left; reflexivity.
  - right. exact (IH x default).
Qed.

Lemma siblings_trace_within (universe : list Node) trace nodes :
  incl nodes universe ->
  (forall node, In node nodes ->
     Forall (fun e => incl (constituents e) universe) (trace node)) ->
  forall st,
    match st with
    | Outer => True
    | Inner acc _ => incl acc universe
    end ->
    Forall (fun e => incl (constituents e) universe)
           (siblings_trace trace nodes st).
Proof.
  intros Hnodes Hrec.
  apply (siblings_trace_forall
           (fun e => incl (constituents e) universe)
           (fun acc _ => incl acc universe)
           (fun node => In node universe)).
  - intros node s Hin _ _ n [<-|[]]. exact Hin.
  - intros acc size node s Hin Hacc _ _.
    apply incl_app; [exact Hacc|]. intros n [<-|[]]. exact Hin.
  - intros acc size Hacc. destruct acc as [|first tl]; [constructor|].
    constructor; [exact Hacc|constructor].
  - intros node s Hin _ _ _ n [<-|[]]. exact Hin.
  - exact Hnodes.
  - exact Hrec.
Qed.

Lemma children_trace_within (node : Node) :
  forall universe,
    incl (subtree node) universe ->
    Forall (fun e => incl (constituents e) universe) (children_trace node).
Proof.
  induction node as [node IH] using Node_induction. intros universe Huni.
  rewrite children_trace_unfold.
  rewrite subtree_unfold in Huni.
  assert (Hkids : incl (forest_nodes (children node)) universe)
    by (intros n Hn; apply Huni; right; exact Hn).
  apply siblings_trace_within; [| |exact I].
  - intros n Hn. apply Hkids.
    apply (forest_nodes_self (children node) n Hn).
    rewrite subtree_unfold. left; reflexivity.
  - intros n Hn. apply (proj1 (Forall_forall _ _) IH n Hn).
    intros m Hm. apply Hkids.
    exact (forest_nodes_self (children node) n Hn m Hm).
Qed.

Lemma emissions_within (nodes : list Node) :
  Forall (fun e => incl (constituents e) (forest_nodes nodes))
         (emissions nodes).
Proof.
  apply siblings_trace_within; [| |exact I].
  - intros n Hn. apply (forest_nodes_self nodes n Hn).
    rewrite subtree_unfold. left; reflexivity.
  - intros n Hn. apply children_trace_within.
    apply forest_nodes_self, Hn.
Qed.

Lemma emit_built_from (universe : list Node) (src : str) (f : string)
    (es : list emission) :
  Forall (fun e => incl (constituents e) universe) es ->
  forall chunks,
    Forall (built_from universe src f) chunks ->
    Forall (built_from universe src f) (fold_left (emit src f) es chunks).
Proof.
  induction 1 as [|e es He Hes IH]; intros chunks Hchunks; [exact Hchunks|].
  cbn [fold_left]. apply IH.
  destruct e as [[|first tl] size|node]; cbn [emit flush constituents] in *.
  - exact Hchunks.
  - unfold add_chunk. apply Forall_app. split; [exact Hchunks|].
    constructor; [|constructor].
    split; [reflexivity|].
    exists first, (List.last (first :: tl) first).
    split; [apply He; left; reflexivity|].
    split; [apply He, last_in|].
    repeat split. left; reflexivity.
  - unfold add_chunk. apply Forall_app. split; [exact Hchunks|].
    constructor; [|constructor].
    split; [reflexivity|].
    exists node, node.
    split; [apply He; left; reflexivity|].
    split; [apply He; left; reflexivity|].
    repeat split. right. split; reflexivity.
Qed.

(** X4. Every chunk [get_chunks] returns bears the caller's file name and
    is cut out of the decoded text of the root between the start of one
    node and the end of another, both found strictly below the root; its
    points are theirs; and its type is ["mix"] or, for a chunk of one node,
    the type of that node.  The span, the points and the type of the root
    itself are not used. *)
Theorem get_chunks_fields
    (root_node : Node) (fname : string) (source_code : str) (c : Chunk) :
  Utf8.decode (text root_node) = Some source_code ->
  In c (get_chunks root_node fname) ->
  built_from (forest_nodes (children root_node)) source_code fname c.
Proof.
  intros Hroot Hin. unfold get_chunks in Hin. rewrite Hroot in Hin.
  rewrite process_nodes_emissions in Hin.
  apply (proj1 (Forall_forall _ _)
           (emit_built_from _ source_code fname _
              (emissions_within (children root_node)) []
              (Forall_nil _)) c Hin).
Qed.

Lemma get_chunks_fields_witness :
  built_from (forest_nodes (children Samples.single_root))
    [120; 61; 49]%N "one.py"
    (chunk_of [120; 61; 49]%N "one.py" 0 0 3 (0, 0)%nat (0, 3)%nat "mix").
Proof.
  apply (get_chunks_fields Samples.single_root "one.py").
  - reflexivity.
  - left; reflexivity.
Defined.

(** ** No decodable sibling is lost *)


Section Kept.

Variable trace : Node -> list emission.




End Kept.



(** ** Siblings that do not decode *)

Lemma siblings_trace_all_undecodable trace (nodes : list Node) :
  Forall (fun node => Utf8.decode (text node) = None) nodes ->
  siblings_trace trace nodes Outer = [].
Proof.
  induction 1 as [|node rest Hnode Hrest IH]; [reflexivity|].
  cbn [siblings_trace]. rewrite Hnode. exact IH.
Qed.

(** X6. When no child of the root decodes, and so when the root has no
    child at all, [get_chunks] returns the empty list, whether the root
    itself decodes or not: the result does not tell this from a root that
    fails to decode. *)
Theorem get_chunks_nothing_decodable (root_node : Node) (fname : string) :
  Forall (fun node => Utf8.decode (text node) = None)
         (children root_node) ->
  get_chunks root_node fname = [].
Proof.
  intros Hall. unfold get_chunks.
  destruct (Utf8.decode (text root_node)) as [source_code|]; [|reflexivity].
  rewrite process_nodes_emissions. unfold emissions.
  rewrite siblings_trace_all_undecodable by exact Hall. reflexivity.
Qed.

Lemma get_chunks_nothing_decodable_witness :
  Utf8.decode (text MoreSamples.torn_root) = Some [233%N]
  /\ get_chunks MoreSamples.torn_root "torn.py" = [].
Proof.
  split; [reflexivity|].
  apply get_chunks_nothing_decodable.
  repeat constructor.
Defined.

(** ** How many chunks *)

Lemma forest_count_cons (node : Node) (rest : list Node) :
  forest_count (node :: rest)
  = (S (forest_count (children node)) + forest_count rest)%nat.
Proof. unfold forest_count. destruct node; reflexivity. Qed.

Lemma flush_trace_length acc size :
  (List.length (flush_trace acc size) <= 1)%nat.
Proof. destruct acc; simpl; lia. Qed.

Lemma siblings_trace_length trace (nodes : list Node) :
  (forall node, In node nodes ->
     (List.length (trace node) <= forest_count (children node))%nat) ->
  forall st,
    (List.length (siblings_trace trace nodes st)
     <= match st with Outer => 0 | Inner _ _ => 1 end
        + forest_count nodes)%nat.
Proof.
  induction nodes as [|node rest IH]; intros Hrec st.
  - destruct st as [|acc size]; simpl; [lia|].
    pose proof (flush_trace_length acc size). lia.
  - assert (Hrec' : forall n, In n rest ->
              (List.length (trace n) <= forest_count (children n))%nat)
      by (intros n Hn; apply Hrec; right; exact Hn).
    specialize (IH Hrec').
    pose proof (Hrec node (or_introl eq_refl)) as Hnode.
    pose proof (IH Outer) as IHo. simpl in IHo.
    assert (IHi : forall acc size,
              (List.length (siblings_trace trace rest (Inner acc size))
               <= 1 + forest_count rest)%nat)
      by (intros acc size; exact (IH (Inner acc size))).
    rewrite forest_count_cons.
    pose proof (IHi ([] ++ [node])) as IHfirst.
    cbn [siblings_trace].
    destruct st as [|acc size].
    + destruct (Utf8.decode (text node)) as [s|]; [|simpl; lia].
      destruct (0 + len s <? MIN_CHUNK_SIZE).
      * specialize (IHfirst (0 + len s)). lia.
      * destruct ((len s >? MAX_CHUNK_SIZE)
                  && (len (children node) >? 0)).
        -- rewrite length_app. lia.
        -- simpl List.length. lia.
    + pose proof (flush_trace_length acc size) as Hflush.
      destruct (size <? MIN_CHUNK_SIZE).
      * destruct (Utf8.decode (text node)) as [s|].
        -- specialize (IHi (acc ++ [node]) (size + len s)). lia.
        -- specialize (IHi acc size). lia.
      * rewrite length_app.
        destruct (Utf8.decode (text node)) as [s|]; [|lia].
        destruct (0 + len s <? MIN_CHUNK_SIZE).
        -- specialize (IHfirst (0 + len s)). lia.
        -- destruct ((len s >? MAX_CHUNK_SIZE)
                     && (len (children node) >? 0)).
           ++ rewrite length_app. lia.
           ++ simpl List.length. lia.
Qed.

Lemma children_trace_length (node : Node) :
  (List.length (children_trace node) <= forest_count (children node))%nat.
Proof.
  induction node as [node IH] using Node_induction.
  rewrite children_trace_unfold.
  apply (siblings_trace_length children_trace (children node)
           (proj1 (Forall_forall _ _) IH) Outer).
Qed.

Lemma emit_length (src : str) (f : string) (es : list emission) :
  forall chunks,
    (List.length (fold_left (emit src f) es chunks)
     <= List.length chunks + List.length es)%nat.
Proof.
  induction es as [|e es IH]; intros chunks; simpl; [lia|].
  specialize (IH (emit src f chunks e)).
  assert (List.length (emit src f chunks e) <= S (List.length chunks))%nat.
  { destruct e as [[|first tl] size|node]; cbn [emit flush];
      unfold add_chunk; rewrite ?length_app; simpl; lia. }
  lia.
Qed.

(** X7. [get_chunks] returns at most as many chunks as there are nodes
    strictly below the root, whatever the sizes and however many of the
    nodes are split. *)
Theorem get_chunks_count_bound (root_node : Node) (fname : string) :
  (List.length (get_chunks root_node fname)
   <= forest_count (children root_node))%nat.
Proof.
  unfold get_chunks.
  destruct (Utf8.decode (text root_node)) as [source_code|]; [|simpl; lia].
  rewrite process_nodes_emissions.
  pose proof (emit_length source_code fname
                (emissions (children root_node)) []) as Hemit.
  pose proof (siblings_trace_length children_trace (children root_node)
                (fun node _ => children_trace_length node) Outer) as Hlen.
  unfold emissions in *. simpl in *. lia.
Qed.

(** ** Order of the spans *)

Lemma spans_ordered_weaken lo lo' hi spans :
  (lo' <= lo)%nat -> spans_ordered lo hi spans ->
  spans_ordered lo' hi spans.
Proof.
  intros Hle H. destruct spans as [|span later]; simpl in *; [lia|].
  destruct H as (H1 & H2 & H3). split; [lia|split; assumption].
Qed.

Lemma spans_ordered_app lo mid hi s1 s2 :
  spans_ordered lo mid s1 -> spans_ordered mid hi s2 ->
  spans_ordered lo hi (s1 ++ s2).
Proof.
  revert lo. induction s1 as [|span later IH]; intros lo H1 H2; simpl in *.
  - apply spans_ordered_weaken with (lo := mid); assumption.
  - destruct H1 as (Ha & Hb & Hc).
    split; [exact Ha|split; [exact Hb|]]. apply IH; assumption.
Qed.

Lemma contained_cons lo hi node rest :
  contained lo hi (node :: rest) = true ->
  (lo <= start_byte node)%nat /\ (start_byte node <= end_byte node)%nat
  /\ contained (end_byte node) hi rest = true.
Proof.
  simpl. intros H.
  apply andb_prop in H as [H Hrest]. apply andb_prop in H as [Hlo Hse].
  apply Nat.leb_le in Hlo. apply Nat.leb_le in Hse.
  split; [exact Hlo|split; [exact Hse|exact Hrest]].
Qed.

Lemma siblings_trace_ordered trace nodes :
  (forall node, In node nodes ->
     spans_ordered (start_byte node) (end_byte node)
                   (map emission_span (trace node))) ->
  forall lo hi,
    contained lo hi nodes = true ->
    spans_ordered lo hi
      (map emission_span (siblings_trace trace nodes Outer))
    /\ forall first tl size,
         (end_byte (List.last (first :: tl) first) <= lo)%nat ->
         (start_byte first <= end_byte (List.last (first :: tl) first))%nat ->
         spans_ordered (start_byte first) hi
           (map emission_span
              (siblings_trace trace nodes (Inner (first :: tl) size))).
Proof.
  induction nodes as [|node rest IH]; intros Hrec lo hi Hcont.
  - simpl in Hcont. apply Nat.leb_le in Hcont.
    split; [exact Hcont|].
    intros first tl size Hlast Hle.
    cbn [siblings_trace flush_trace map emission_span spans_ordered fst snd].
    split; [lia|split; [exact Hle|lia]].
  - apply contained_cons in Hcont as (Hlo & Hse & Hrest).
    assert (Hrec' : forall n, In n rest ->
              spans_ordered (start_byte n) (end_byte n)
                            (map emission_span (trace n)))
      by (intros n Hn; apply Hrec; right; exact Hn).
    destruct (IH Hrec' (end_byte node) hi Hrest) as [IHo IHi].
    pose proof (Hrec node (or_introl eq_refl)) as Hnode.
    assert (Houter :
      spans_ordered lo hi
        (map emission_span
           match Utf8.decode (text node) with
           | Some s =>
               if 0 + len s <? MIN_CHUNK_SIZE
               then siblings_trace trace rest
                      (Inner ([] ++ [node]) (0 + len s))
               else if (len s >? MAX_CHUNK_SIZE)
                       && (len (children node) >? 0)
               then trace node ++ siblings_trace trace rest Outer
               else Standalone node :: siblings_trace trace rest Outer
           | None => siblings_trace trace rest Outer
           end)).
    { destruct (Utf8.decode (text node)) as [s|].
      - destruct (0 + len s <? MIN_CHUNK_SIZE).
        + apply spans_ordered_weaken with (lo := start_byte node);
            [exact Hlo|].
          apply IHi; simpl; lia.
        + destruct ((len s >? MAX_CHUNK_SIZE)
                    && (len (children node) >? 0)).
          * rewrite map_app.
            apply spans_ordered_app with (mid := end_byte node);
              [|exact IHo].
            apply spans_ordered_weaken with (lo := start_byte node);
              assumption.
          * cbn [map emission_span spans_ordered fst snd].
            split; [exact Hlo|split; [exact Hse|exact IHo]].
      - apply spans_ordered_weaken with (lo := end_byte node);
          [lia|exact IHo]. }
    split; [exact Houter|].
    intros first tl size Hlast Hle.
    cbn [siblings_trace].
    destruct (size <? MIN_CHUNK_SIZE).
    + destruct (Utf8.decode (text node)) as [s|].
      * change ((first :: tl) ++ [node]) with (first :: (tl ++ [node])).
        assert (Hnew : List.last (first :: tl ++ [node]) first = node).
        { change (first :: tl ++ [node]) with ((first :: tl) ++ [node]).
          apply last_last. }
        apply IHi; rewrite Hnew; lia.
      * apply IHi; lia.
    + rewrite map_app.
      apply spans_ordered_app
        with (mid := end_byte (List.last (first :: tl) first)).
      * cbn [flush_trace map emission_span spans_ordered fst snd].
        split; [lia|split; [exact Hle|lia]].
      * apply spans_ordered_weaken with (lo := lo); assumption.
Qed.

Lemma well_formed_parts (src : bytes) (node : Node) :
  well_formed src node = true ->
  contained (start_byte node) (end_byte node) (children node) = true
  /\ forallb (well_formed src) (children node) = true.
Proof.
  destruct node as [sb eb sp ep ty tx kids].
  cbn [well_formed start_byte end_byte text children]. intros H.
  apply andb_prop in H as [H Hall]. apply andb_prop in H as [_ Hcont].
  split; assumption.
Qed.

Lemma children_trace_ordered (src : bytes) (node : Node) :
  well_formed src node = true ->
  spans_ordered (start_byte node) (end_byte node)
                (map emission_span (children_trace node)).
Proof.
  induction node as [node IH] using Node_induction. intros Hwf.
  apply well_formed_parts in Hwf as [Hcont Hall].
  rewrite children_trace_unfold.
  apply siblings_trace_ordered; [|exact Hcont].
  intros n Hn. apply (proj1 (Forall_forall _ _) IH n Hn).
  exact (proj1 (forallb_forall _ _) Hall n Hn).
Qed.

Lemma emit_map_content (src : str) (f : string) (es : list emission) :
  Forall (fun e => constituents e <> []) es ->
  forall chunks,
    map content (fold_left (emit src f) es chunks)
    = map content chunks ++ map (emission_content src) es.
Proof.
  induction 1 as [|e es He Hes IH]; intros chunks; simpl.
  - symmetry; apply app_nil_r.
  - rewrite IH.
    destruct e as [[|first tl] size|node]; cbn [constituents] in He;
      [congruence| |];
      cbn [emit flush]; unfold add_chunk, emission_content;
      rewrite map_app, <- app_assoc; reflexivity.
Qed.

Lemma emissions_nonempty (nodes : list Node) :
  Forall (fun e => constituents e <> []) (emissions nodes).
Proof.
  eapply Forall_impl; [|apply emissions_well_built].
  intros [acc size|node] H; simpl in *; [|discriminate].
  destruct H as ((first & tl & -> & _) & _). discriminate.
Qed.

(** X8. For a well-formed tree (every node inside the source, children in
    order inside their parent, gaps allowed) the byte spans that
    [get_chunks] hands to [add_chunk] come in source order and do not
    overlap: each starts at or after the end of the one before and all lie
    inside the root; a node that does not decode changes nothing to
    that.  The content of the i-th chunk is the slice of the decoded source
    at the i-th span. *)
Theorem chunk_spans_ordered
    (root_node : Node) (fname : string) (source_code : str) :
  well_formed_root root_node = true ->
  Utf8.decode (text root_node) = Some source_code ->
  spans_ordered 0 (List.length (text root_node))
    (map emission_span (emissions (children root_node)))
  /\ map content (get_chunks root_node fname)
     = map (emission_content source_code) (emissions (children root_node)).
Proof.
  intros Hwf Hroot. unfold well_formed_root in Hwf.
  apply andb_prop in Hwf as [Hwf Hshape]. apply andb_prop in Hwf as [Hs He].
  apply Nat.eqb_eq in Hs. apply Nat.eqb_eq in He.
  split.
  - rewrite <- Hs at 1. rewrite <- He.
    rewrite <- children_trace_unfold.
    apply children_trace_ordered with (src := text root_node). exact Hshape.
  - unfold get_chunks. rewrite Hroot.
    rewrite process_nodes_emissions.
    apply (emit_map_content source_code fname _
             (emissions_nonempty (children root_node)) []).
Qed.

Lemma chunk_spans_ordered_witness :
  spans_ordered 0 4
    (map emission_span (emissions (children Samples.skip_root)))
  /\ map content (get_chunks Samples.skip_root "skip.py")
     = map (emission_content [97; 233; 98]%N)
           (emissions (children Samples.skip_root)).
Proof.
  apply (chunk_spans_ordered Samples.skip_root "skip.py" [97; 233; 98]%N);
    reflexivity.
Defined.

(** ** UTF-8: encoding, decoding, lengths *)

Lemma val_utf8_byte (n : N) : (n < 256)%N -> Utf8.val (utf8_byte n) = n.
Proof.
  intros Hn. unfold utf8_byte, Utf8.val.
  destruct (Byte.of_N n) as [b|] eqn:Hb.
  - apply Byte.to_of_N, Hb.
  - apply Byte.of_N_None_iff in Hb. lia.
Qed.

Lemma quotients (cp : N) :
  (cp = 64 * (cp / 64) + cp mod 64 /\ cp mod 64 < 64
   /\ cp / 64 = 64 * (cp / 4096) + (cp / 64) mod 64
   /\ (cp / 64) mod 64 < 64
   /\ cp / 4096 = 64 * (cp / 262144) + (cp / 4096) mod 64
   /\ (cp / 4096) mod 64 < 64)%N.
Proof.
  assert (H64 : (64 <> 0)%N) by discriminate.
  pose proof (N.div_mod cp 64 H64) as H1.
  pose proof (N.mod_lt cp 64 H64) as H2.
  pose proof (N.div_mod (cp / 64) 64 H64) as H3.
  pose proof (N.mod_lt (cp / 64) 64 H64) as H4.
  pose proof (N.div_mod (cp / 4096) 64 H64) as H5.
  pose proof (N.mod_lt (cp / 4096) 64 H64) as H6.
  rewrite (N.Div0.div_div cp 64 64) in H3.
  rewrite (N.Div0.div_div cp 4096 64) in H5.
  change (64 * 64)%N with 4096%N in H3.
  change (4096 * 64)%N with 262144%N in H5.
  repeat split; assumption.
Qed.

Ltac decide_N :=
  repeat first
    [ match goal with
      | |- context [(?a <? ?b)%N] =>
          first [ rewrite (proj2 (N.ltb_lt a b)) by lia
                | rewrite (proj2 (N.ltb_ge a b)) by lia ]
      | |- context [(?a <=? ?b)%N] =>
          first [ rewrite (proj2 (N.leb_le a b)) by lia
                | rewrite (proj2 (N.leb_gt a b)) by lia ]
      | |- context [(?a =? ?b)%N] =>
          first [ rewrite (proj2 (N.eqb_eq a b)) by lia
                | rewrite (proj2 (N.eqb_neq a b)) by lia ]
      end
    | match goal with
      | |- context [(?a =? ?b)%N] => destruct (N.eqb_spec a b)
      end ];
  cbn [andb].

Lemma decode_one (a : N) (rest : bytes) :
  (a < 128)%N ->
  Utf8.decode (utf8_byte a :: rest)
  = option_map (cons a) (Utf8.decode rest).
Proof.
  intros Ha. cbn [Utf8.decode]. rewrite val_utf8_byte by lia.
  decide_N. reflexivity.
Qed.

Lemma decode_two (a b : N) (rest : bytes) :
  (194 <= a <= 223)%N -> (128 <= b <= 191)%N ->
  Utf8.decode (utf8_byte a :: utf8_byte b :: rest)
  = option_map (cons ((a - 192) * 64 + (b - 128))%N) (Utf8.decode rest).
Proof.
  intros Ha Hb. cbn [Utf8.decode].
  unfold Utf8.cont, Utf8.low6, Utf8.between.
  rewrite !val_utf8_byte by lia.
  decide_N; reflexivity.
Qed.

Lemma decode_three (a b c : N) (rest : bytes) :
  (224 <= a <= 239)%N -> (128 <= b <= 191)%N -> (128 <= c <= 191)%N ->
  (a = 224 -> 160 <= b)%N -> (a = 237 -> b <= 159)%N ->
  Utf8.decode (utf8_byte a :: utf8_byte b :: utf8_byte c :: rest)
  = option_map
      (cons ((a - 224) * 4096 + (b - 128) * 64 + (c - 128))%N)
      (Utf8.decode rest).
Proof.
  intros Ha Hb Hc Hlo Hhi. cbn [Utf8.decode].
  unfold Utf8.cont, Utf8.low6, Utf8.between.
  rewrite !val_utf8_byte by lia.
  decide_N; reflexivity.
Qed.

Lemma decode_four (a b c d : N) (rest : bytes) :
  (240 <= a <= 244)%N -> (128 <= b <= 191)%N -> (128 <= c <= 191)%N ->
  (128 <= d <= 191)%N ->
  (a = 240 -> 144 <= b)%N -> (a = 244 -> b <= 143)%N ->
  Utf8.decode
    (utf8_byte a :: utf8_byte b :: utf8_byte c :: utf8_byte d :: rest)
  = option_map
      (cons ((a - 240) * 262144 + (b - 128) * 4096 + (c - 128) * 64
             + (d - 128))%N)
      (Utf8.decode rest).
Proof.
  intros Ha Hb Hc Hd Hlo Hhi. cbn [Utf8.decode].
  unfold Utf8.cont, Utf8.low6, Utf8.between.
  rewrite !val_utf8_byte by lia.
  decide_N; reflexivity.
Qed.

(** The bytes of a code point decode to that code point, whatever
    follows. *)
Lemma decode_encode_point (cp : N) (bs rest : bytes) :
  utf8_encode_point cp = Some bs ->
  Utf8.decode (bs ++ rest) = option_map (cons cp) (Utf8.decode rest).
Proof.
  unfold utf8_encode_point. intros H.
  pose proof (quotients cp) as (Q1 & Q2 & Q3 & Q4 & Q5 & Q6).
  destruct (N.ltb_spec cp 128) as [H1|H1];
    [|destruct (N.ltb_spec cp 2048) as [H2|H2];
      [|destruct (N.ltb_spec cp 65536) as [H3|H3];
        [|destruct (N.ltb_spec cp 1114112) as [H4|H4];
          [|discriminate]]]];
    try (destruct ((55296 <=? cp)%N && (cp <=? 57343)%N) eqn:Hsur;
         [discriminate|]);
    match type of H with
    | Some ?l = Some _ => assert (Hbs : bs = l) by congruence
    end;
    subst bs; clear H; cbn [app];
    generalize dependent ((cp / 4096) mod 64)%N; intros r3;
    generalize dependent ((cp / 64) mod 64)%N; intros r2;
    generalize dependent (cp mod 64)%N; intros r1;
    generalize dependent (cp / 262144)%N; intros q3;
    generalize dependent (cp / 4096)%N; intros q2;
    generalize dependent (cp / 64)%N; intros q1; intros.
  - apply decode_one, H1.
  - rewrite decode_two by lia. do 2 f_equal. lia.
  - assert (Hns : (cp < 55296 \/ 57343 < cp)%N).
    { apply andb_false_iff in Hsur as [Hlo|Hhi].
      - left. apply N.leb_gt, Hlo.
      - right. apply N.leb_gt, Hhi. }
    rewrite decode_three by lia. do 2 f_equal. lia.
  - rewrite decode_four by lia. do 2 f_equal. lia.
Qed.

(** What [bytes(s, "utf8")] gives decodes back to [s]. *)
Lemma decode_encode (s : str) :
  forall b, utf8_encode s = Some b -> Utf8.decode b = Some s.
Proof.
  induction s as [|cp rest IH]; intros b H; simpl in H.
  - injection H as <-. reflexivity.
  - destruct (utf8_encode_point cp) as [bs|] eqn:Hcp; [|discriminate].
    destruct (utf8_encode rest) as [r|]; [|discriminate].
    injection H as <-.
    rewrite (decode_encode_point cp bs r Hcp), (IH r eq_refl).
    reflexivity.
Qed.

Lemma decode_length_bounded (n : nat) :
  forall b, (List.length b <= n)%nat ->
    forall s, Utf8.decode b = Some s ->
      (List.length s <= List.length b)%nat.
Proof.
  induction n as [|n IH]; intros b Hb s H.
  - destruct b; [|simpl in Hb; lia].
    injection H as <-. simpl. lia.
  - destruct b as [|b0 t0]; [injection H as <-; simpl; lia|].
    cbn [Utf8.decode] in H.
    repeat match type of H with
      | context [if ?c then _ else _] => destruct c; try discriminate
      | context [match ?l with [] => _ | _ :: _ => _ end] =>
          destruct l; try discriminate
      end;
      match type of H with
      | option_map _ (Utf8.decode ?t) = _ =>
          destruct (Utf8.decode t) as [r|] eqn:Hr; [|discriminate];
          simpl in H; injection H as <-;
          apply IH in Hr; simpl in *; lia
      end.
Qed.

(** X9. In characters a text is never longer than in bytes: the size
    [process_nodes] compares with the thresholds is at most the number of
    bytes of the node's text, and it is that number when the text is
    ASCII. *)
Theorem node_size_at_most_bytes (node : Node) (size : Z) :
  node_size node = Some size ->
  0 <= size <= len (text node)
  /\ (Utf8.ascii (text node) -> size = len (text node)).
Proof.
  intros H. apply node_size_decode in H as (s & Hdec & Hlen).
  subst size. split.
  - pose proof (decode_length_bounded _ (text node) (le_n _) s Hdec).
    unfold len. lia.
  - intros Hascii. rewrite (ascii_decode _ Hascii) in Hdec.
    injection Hdec as <-. unfold len. rewrite length_map. reflexivity.
Qed.

Lemma node_size_at_most_bytes_witness :
  0 <= 1024 <= len (text Samples.nested_a)
  /\ (Utf8.ascii (text Samples.nested_a) ->
      1024 = len (text Samples.nested_a)).
Proof.
  apply (node_size_at_most_bytes Samples.nested_a 1024).
  vm_compute; reflexivity.
Defined.

(** X10. What [bytes(s, "utf8")] produces decodes back to [s]: encoding
    then decoding, as [process_code] and [get_chunks] do one after the other,
    loses nothing. *)
Theorem utf8_round_trip (s : str) (b : bytes) :
  utf8_encode s = Some b -> Utf8.decode b = Some s.
Proof. apply decode_encode. Qed.

Lemma utf8_round_trip_witness :
  Utf8.decode [xc3; xa9; xe2; x82; xac; xf0; x9f; x98; x80; x61]
  = Some [233; 8364; 128512; 97]%N.
Proof.
  apply (utf8_round_trip [233; 8364; 128512; 97]%N). reflexivity.
Defined.

(** ** [process_code] *)

(** X11. [process_code] returns the pair [([], {})] exactly when no tree
    was obtained: the source is [None], the source holds a surrogate that
    does not encode, or the parser raised an exception.  Once a tree is
    there the [try] is over: whenever the recursion limit admits more
    nested calls than the tree below the root is high, it returns the bare
    list of chunks of [get_chunks], not a pair; and the one exception that
    can leave [process_code] is the [RecursionError] that left
    [get_chunks], which it lets through. *)
Theorem process_code_outcomes
    (parse : bytes -> option Node) (fname : string)
    (source_code : option str) :
  ((source_code = None
    \/ (exists s, source_code = Some s /\ utf8_encode s = None)
    \/ (exists s b, source_code = Some s /\ utf8_encode s = Some b
                    /\ parse b = None))
   <-> exists fuel limit,
         process_code parse fuel limit fname source_code
         = Imp.Ret EmptyPair)
  /\ (forall s b root_node limit extra,
        source_code = Some s -> utf8_encode s = Some b ->
        parse b = Some root_node ->
        (forest_height (children root_node) < limit)%nat ->
        process_code parse (S (forest_count (children root_node)) + extra)
                     limit fname source_code
        = Imp.Ret (ChunkList (get_chunks root_node fname)))
  /\ (forall fuel limit e,
        process_code parse fuel limit fname source_code = Imp.Raise e ->
        e = Imp.RecursionError
        /\ exists s b root_node,
             source_code = Some s /\ utf8_encode s = Some b
             /\ parse b = Some root_node
             /\ Imp.get_chunks fuel limit root_node fname
                = Imp.Raise Imp.RecursionError).
Proof.
  split; [|split].
  - split.
    + intros [->|[(s & -> & Hs)|(s & b & -> & Hs & Hb)]];
        exists 0%nat, 0%nat; unfold process_code; rewrite ?Hs, ?Hb;
        reflexivity.
    + intros (fuel & limit & H). unfold process_code in H.
      destruct source_code as [s|]; [|left; reflexivity].
      right.
      destruct (utf8_encode s) as [b|] eqn:Hs;
        [|left; exists s; split; [reflexivity|exact Hs]].
      right.
      destruct (parse b) as [root_node|] eqn:Hb.
      * destruct (Imp.get_chunks fuel limit root_node fname);
          discriminate.
      * exists s, b. split; [reflexivity|split; [exact Hs|exact Hb]].
  - intros s b root_node limit extra -> Hs Hb Hlimit. unfold process_code.
    rewrite Hs, Hb, imp_get_chunks_returns by exact Hlimit. reflexivity.
  - intros fuel limit e. unfold process_code.
    destruct source_code as [s|]; [|discriminate].
    destruct (utf8_encode s) as [b|] eqn:Hs; [|discriminate].
    destruct (parse b) as [root_node|] eqn:Hb; [|discriminate].
    destruct (Imp.get_chunks fuel limit root_node fname)
      as [chunks|e'|] eqn:Hrun; try discriminate.
    intros H. injection H as <-.
    pose proof (imp_get_chunks_only_recursion _ _ _ _ _ Hrun) as ->.
    split; [reflexivity|].
    exists s, b, root_node.
    split; [reflexivity|split; [exact Hs|split; [exact Hb|exact Hrun]]].
Qed.

(** The parser that answers with the deep tree, whatever it is given. *)
Lemma process_code_lets_recursion_error_out :
  forall fuel limit s,
    (limit <= 1000)%nat -> (limit < fuel)%nat ->
    utf8_encode s <> None ->
    process_code (fun _ => Some (Deep.root 1000)) fuel limit "deep.py"
                 (Some s)
    = Imp.Raise Imp.RecursionError.
Proof.
  intros fuel limit s Hlimit Hfuel Hs. unfold process_code.
  destruct (utf8_encode s) as [b|]; [|congruence].
  pose proof (deep_source_ascii 1000) as Hascii.
  pose proof (deep_source_length 1000) as Hlen.
  unfold Imp.get_chunks, Imp.decode.
  assert (Htext : text (Deep.root 1000) = Deep.source 1000).
  { unfold Deep.root, node_at, slice; cbn [text].
    rewrite Nat.sub_0_r. simpl skipn.
    rewrite <- Hlen. apply firstn_all. }
  rewrite Htext, (ascii_decode _ Hascii).
  change (children (Deep.root 1000))
    with [Deep.chain (Deep.source 1000) 1000].
  rewrite (deep_chain_raises _ "deep.py" (Deep.source 1000) Hascii)
    by (rewrite ?Hlen; lia).
  reflexivity.
Qed.

(** X12. When the parser hands back the bytes it was given as the text of
    the root, as tree-sitter does, the root always decodes inside
    [process_code], and it decodes to the caller's own string: the chunks
    are cut out of [source_code] itself, and the branch of [get_chunks]
    that gives up on an undecodable root is never taken. *)
Theorem process_code_chunks_of_source
    (parse : bytes -> option Node) (fname : string)
    (s : str) (b : bytes) (root_node : Node) (limit extra : nat) :
  keeps_source parse ->
  utf8_encode s = Some b ->
  parse b = Some root_node ->
  (forest_height (children root_node) < limit)%nat ->
  Utf8.decode (text root_node) = Some s
  /\ process_code parse (S (forest_count (children root_node)) + extra)
                  limit fname (Some s)
     = Imp.Ret (ChunkList (process_nodes s fname (children root_node) [])).
Proof.
  intros Hkeeps Hs Hb Hlimit.
  assert (Hroot : Utf8.decode (text root_node) = Some s).
  { rewrite (Hkeeps b root_node Hb). apply decode_encode, Hs. }
  split; [exact Hroot|].
  unfold process_code.
  rewrite Hs, Hb, imp_get_chunks_returns by exact Hlimit.
  unfold get_chunks. rewrite Hroot. reflexivity.
Qed.

Lemma whole_parser_keeps_source : keeps_source MoreSamples.whole_parser.
Proof.
  intros b root_node H. injection H as <-.
  unfold node_at, slice; cbn [text]. rewrite Nat.sub_0_r.
  apply firstn_all.
Qed.

Lemma process_code_chunks_of_source_witness :
  Utf8.decode (text (node_at [xc3; xa9; x61] 0 3 "module"
                       [node_at [xc3; xa9; x61] 0 3 "source" []]))
  = Some [233; 97]%N
  /\ process_code MoreSamples.whole_parser 2 2 "accent.py"
       (Some [233; 97]%N)
     = Imp.Ret (ChunkList
                  [chunk_of [233; 97]%N "accent.py" 0 0 3
                     (0, 0)%nat (0, 3)%nat "mix"]).
Proof.
  apply (process_code_chunks_of_source MoreSamples.whole_parser "accent.py"
           [233; 97]%N [xc3; xa9; x61]
           (node_at [xc3; xa9; x61] 0 3 "module"
              [node_at [xc3; xa9; x61] 0 3 "source" []]) 2 0).
  - exact whole_parser_keeps_source.
  - reflexivity.
  - reflexivity.
  - vm_compute. lia.
Defined.

(** ** Siblings without children *)

Lemma leaves_trace trace (nodes : list Node) :
  Forall (fun node => children node = []) nodes ->
  forall st,
    List.concat (map constituents (siblings_trace trace nodes st))
    = match st with
      | Outer => []
      | Inner acc _ => acc
      end ++ filter is_decodable nodes.
Proof.
  induction 1 as [|node rest Hleaf Hrest IH]; intros st.
  - destruct st as [|[|first tl] size]; simpl; rewrite ?app_nil_r;
      reflexivity.
  - cbn [siblings_trace filter]. unfold is_decodable at 1 3.
    assert (Hflush : forall acc size,
              List.concat (map constituents (flush_trace acc size)) = acc).
    { intros [|first tl] size; simpl; rewrite ?app_nil_r; reflexivity. }
    destruct (Utf8.decode (text node)) as [s|].
    + assert (Houter :
        List.concat
          (map constituents
             (if 0 + len s <? MIN_CHUNK_SIZE
              then siblings_trace trace rest
                     (Inner ([] ++ [node]) (0 + len s))
              else if (len s >? MAX_CHUNK_SIZE)
                      && (len (children node) >? 0)
              then trace node ++ siblings_trace trace rest Outer
              else Standalone node :: siblings_trace trace rest Outer))
        = node :: filter is_decodable rest).
      { destruct (0 + len s <? MIN_CHUNK_SIZE); [apply IH|].
        rewrite Hleaf, andb_false_r.
        cbn [map List.concat constituents]. rewrite IH. reflexivity. }
      destruct st as [|acc size]; [exact Houter|].
      destruct (size <? MIN_CHUNK_SIZE).
      * rewrite IH, <- app_assoc. reflexivity.
      * rewrite map_app, concat_app, Hflush, Houter. reflexivity.
    + destruct st as [|acc size]; [apply IH|].
      destruct (size <? MIN_CHUNK_SIZE); [apply IH|].
      rewrite map_app, concat_app, Hflush, IH. reflexivity.
Qed.

(** X13. On a sibling list of leaves, where nothing can be split, the
    chunks partition the decodable siblings: read one after the other,
    the nodes the chunks were built from are the siblings whose text
    decodes, each exactly once and in their order. *)
Theorem leaves_are_partitioned (nodes : list Node) :
  Forall (fun node => children node = []) nodes ->
  List.concat (map constituents (emissions nodes))
  = filter is_decodable nodes.
Proof.
  intros Hleaves.
  apply (leaves_trace children_trace nodes Hleaves Outer).
Qed.

Lemma leaves_are_partitioned_witness :
  List.concat (map constituents (emissions (children Samples.skip_root)))
  = [Samples.skip_a; Samples.skip_b].
Proof.
  apply (leaves_are_partitioned (children Samples.skip_root)).
  repeat constructor.
Defined.

(** ** Chunk contents over ASCII sources *)

Lemma well_formed_texts (src : bytes) (node : Node) :
  well_formed src node = true ->
  forall n, In n (subtree node) ->
    text n = slice src (start_byte n) (end_byte n).
Proof.
  induction node as [node IH] using Node_induction. intros Hwf n Hn.
  pose proof (well_formed_parts src node Hwf) as [_ Hall].
  rewrite subtree_unfold in Hn. destruct Hn as [<-|Hn].
  - destruct node as [sb eb sp ep ty tx kids].
    cbn [well_formed start_byte end_byte text children] in *.
    apply andb_prop in Hwf as [Hwf _]. apply andb_prop in Hwf as [Hwf _].
    apply andb_prop in Hwf as [_ Htext].
    apply bytes_eqb_eq, Htext.
  - apply in_flat_map in Hn as (kid & Hkid & Hn).
    apply (proj1 (Forall_forall _ _) IH kid Hkid); [|exact Hn].
    exact (proj1 (forallb_forall _ _) Hall kid Hkid).
Qed.

Lemma Forall2_of_map_eq {A B C : Type} (g : A -> C) (h : B -> C)
    (l : list A) (l' : list B) :
  map g l = map h l' -> Forall2 (fun x y => g x = h y) l l'.
Proof.
  revert l'. induction l as [|x l IH]; intros [|y l'] H; simpl in H;
    try discriminate; constructor.
  - congruence.
  - apply IH. congruence.
Qed.

Lemma Forall2_impl_in {A B : Type} (R Q : A -> B -> Prop)
    (l : list A) (l' : list B) :
  Forall2 R l l' ->
  (forall x y, In y l' -> R x y -> Q x y) ->
  Forall2 Q l l'.
Proof.
  induction 1 as [|x y l l' Hxy Hrest IH]; intros Himp; constructor.
  - apply Himp; [left; reflexivity|exact Hxy].
  - apply IH. intros a b Hb. apply Himp. right. exact Hb.
Qed.

(** X14. Over an ASCII source, where byte offsets and character offsets
    agree, what a chunk holds is what its span holds.  The chunks
    [get_chunks] returns answer one by one to the calls of [add_chunk]:
    the [content] of each chunk is the decoding of the source bytes
    between the two offsets of its call, and the [content] of the chunk
    made for one node of a well-formed tree is the decoded text of that
    node. *)
Theorem ascii_chunk_content (root_node : Node) (fname : string) :
  Utf8.ascii (text root_node) ->
  well_formed_root root_node = true ->
  Forall2
    (fun c e =>
       Utf8.decode (slice (text root_node) (fst (emission_span e))
                          (snd (emission_span e)))
       = Some (content c)
       /\ (forall node, e = Standalone node ->
             Utf8.decode (text node) = Some (content c)))
    (get_chunks root_node fname)
    (emissions (children root_node)).
Proof.
  intros Hascii Hwf.
  assert (Hspan : forall a b,
            Utf8.decode (slice (text root_node) a b)
            = Some (slice (map Utf8.val (text root_node)) a b)).
  { intros a b. rewrite ascii_decode by (apply ascii_slice, Hascii).
    rewrite slice_map. reflexivity. }
  assert (Hcontent :
            map content (get_chunks root_node fname)
            = map (emission_content (map Utf8.val (text root_node)))
                  (emissions (children root_node))).
  { unfold get_chunks. rewrite (ascii_decode _ Hascii).
    rewrite process_nodes_emissions.
    apply (emit_map_content _ fname _
             (emissions_nonempty (children root_node)) []). }
  apply Forall2_of_map_eq in Hcontent.
  apply (Forall2_impl_in _ _ _ _ Hcontent).
  intros c e Hin ->. unfold emission_content.
  split; [apply Hspan|].
  intros node ->.
  unfold well_formed_root in Hwf.
  apply andb_prop in Hwf as [_ Hwf].
  pose proof (proj1 (Forall_forall _ _)
                (emissions_within (children root_node)) _ Hin node
                (or_introl eq_refl)) as Hnode.
  rewrite (well_formed_texts (text root_node) root_node Hwf node).
  - apply Hspan.
  - rewrite subtree_unfold. right. exact Hnode.
Qed.

Lemma ascii_chunk_content_witness :
  Forall2
    (fun c e =>
       Utf8.decode (slice (text Samples.mid_leaf_root)
                          (fst (emission_span e)) (snd (emission_span e)))
       = Some (content c)
       /\ (forall node, e = Standalone node ->
             Utf8.decode (text node) = Some (content c)))
    (get_chunks Samples.mid_leaf_root "mid.py")
    [Standalone Samples.mid_first; Standalone Samples.mid_leaf;
     Mix [Samples.mid_last] 300].
Proof.
  replace [Standalone Samples.mid_first; Standalone Samples.mid_leaf;
           Mix [Samples.mid_last] 300]
    with (emissions (children Samples.mid_leaf_root))
    by (vm_compute; reflexivity).
  apply (ascii_chunk_content Samples.mid_leaf_root "mid.py").
  - change (text Samples.mid_leaf_root)
      with (slice Samples.mid_src 0 4400).
    apply ascii_slice. apply Forall_forall. intros b Hb.
    apply repeat_spec in Hb. subst b. reflexivity.
  - vm_compute; reflexivity.
Defined.
